(** * Amortization engine of [LoanPmt.py] (class [MortgagePayment])

    A shallow embedding of the rate converter ([_period_rate]), the payment
    solver ([calculate_payment], [payments]), the schedule builder
    ([build_amortization_schedule]) and the scheme list of
    [generate_payment_schedule].

    Number model.  Python [float]s are idealised as real numbers ([R]):
    every arithmetic operation is exact, [x ** y] on a positive base is
    [Rpower x y], [x ** k] with an [int] exponent is [powerRZ x k] as long
    as the result is within the binary64 range ([float_max]) and raises
    [OverflowError] beyond it, and the comparisons [<=], [<] and [==] are
    those of [R].  Every equality between amounts below is therefore an
    equality of exact arithmetic; in binary64 the same amounts agree up to
    rounding.  Python [int]s are [Z].  An exception raised by the code is a
    [Raise] result.

    Where the outcome of the loop hangs on a comparison that rounding can
    decide either way (the break test after a row that leaves a balance of
    exactly zero in exact arithmetic), the loop is also given on binary64
    numbers, in the module [Binary64], with the operations of IEEE 754
    ([PrimFloat]). *)

From Stdlib Require Import Reals ZArith String List Lra Lia Psatz.
From Stdlib Require Floats Uint63.
Import ListNotations.
Open Scope R_scope.

(** ** Exceptions *)

Inductive PyError : Type :=
| ZeroDivisionError
| KeyError
| OverflowError.

Inductive result (A : Type) : Type :=
| Ok (a : A)
| Raise (e : PyError).
Arguments Ok {A} a.
Arguments Raise {A} e.

Definition bind {A B : Type} (c : result A) (k : A -> result B) : result B :=
  match c with
  | Ok a => k a
  | Raise e => Raise e
  end.

Notation "x <- c ;; k" := (bind c (fun x => k))
  (at level 61, c at next level, right associativity).

Fixpoint mapM {A B : Type} (f : A -> result B) (l : list A) : result (list B) :=
  match l with
  | [] => Ok []
  | a :: l' => b <- f a ;; bs <- mapM f l' ;; Ok (b :: bs)
  end.

(** ** Python arithmetic that can raise *)

(** [x / y]: true division, [ZeroDivisionError] on a zero divisor. *)
Definition py_div (x y : R) : result R :=
  if Req_dec_T y 0 then Raise ZeroDivisionError else Ok (x / y).

(** The largest finite binary64 number, [(2 - 2^-52) * 2^1023]. *)
Definition float_max : R := (2 - / 2 ^ 52) * 2 ^ 1023.

(** [x ** k] for a float [x] and an int [k]: zero to a negative power
    raises [ZeroDivisionError], and a result beyond the binary64 range
    raises [OverflowError]. *)
Definition py_pow_int (x : R) (k : Z) : result R :=
  if Req_dec_T x 0 then
    (if (k <? 0)%Z then Raise ZeroDivisionError else Ok (powerRZ x k))
  else if Rle_dec (Rabs (powerRZ x k)) float_max then Ok (powerRZ x k)
  else Raise OverflowError.

(** ** The class instance *)

Record MortgagePayment : Type := {
  quoted_interest_rate : R;
  amortization_years : Z;
  term_years : Z;
  monthly_rate : R;
  semi_monthly_rate : R;
  bi_weekly_rate : R;
  weekly_rate : R
}.

(** The nested function of [__init__].  [Rpower] is Python's [**] for a
    positive base, that is for [-2 < quoted_interest_rate]; the constructor
    calls it with the non-zero constants 12, 24, 26 and 52 only, and with
    these exponents, all below 1, the power of a binary64 base stays in
    range. *)
Definition _period_rate (quoted_interest_rate : R) (periods_per_year : Z) : R :=
  Rpower (1 + quoted_interest_rate / 2) (2 / IZR periods_per_year) - 1.

Definition __init__ (quoted_interest_rate : R) (amortization_years term_years : Z)
  : MortgagePayment :=
  let q := quoted_interest_rate / 100 in
  {| quoted_interest_rate := q;
     amortization_years := amortization_years;
     term_years := term_years;
     monthly_rate := _period_rate q 12;
     semi_monthly_rate := _period_rate q 24;
     bi_weekly_rate := _period_rate q 26;
     weekly_rate := _period_rate q 52 |}.

(** ** Payment solver *)

Definition calculate_payment (self : MortgagePayment) (principal rate : R) (m : Z)
  : result R :=
  let n := (amortization_years self * m)%Z in
  if Req_dec_T rate 0 then py_div principal (IZR n)
  else
    pw <- py_pow_int (1 + rate) (- n) ;;
    py_div (principal * rate) (1 - pw).

Definition payments (self : MortgagePayment) (principal : R)
  : result (R * R * R * R * R * R) :=
  monthly <- calculate_payment self principal (monthly_rate self) 12 ;;
  semi_monthly <- calculate_payment self principal (semi_monthly_rate self) 24 ;;
  bi_weekly <- calculate_payment self principal (bi_weekly_rate self) 26 ;;
  let accelerated_bi_weekly := monthly / 2 in
  weekly <- calculate_payment self principal (weekly_rate self) 52 ;;
  let accelerated_weekly := monthly / 4 in
  Ok (monthly, semi_monthly, bi_weekly, accelerated_bi_weekly, weekly,
      accelerated_weekly).

(** ** Schedule builder *)

Record Row : Type := {
  Period : Z;
  Beginning_Balance : R;
  Payment : R;
  Principal_Paid : R;
  Interest_Paid : R;
  Ending_Balance : R
}.

(** The body of one iteration, after the [break] test. *)
Definition period_row (payment rate : R) (period : Z) (current_balance : R) : Row :=
  let interest_paid := current_balance * rate in
  if Rlt_dec (current_balance + interest_paid) payment then
    {| Period := period;
       Beginning_Balance := current_balance;
       Payment := current_balance + interest_paid;
       Principal_Paid := current_balance;
       Interest_Paid := interest_paid;
       Ending_Balance := 0 |}
  else
    {| Period := period;
       Beginning_Balance := current_balance;
       Payment := payment;
       Principal_Paid := payment - interest_paid;
       Interest_Paid := interest_paid;
       Ending_Balance := current_balance - (payment - interest_paid) |}.

(** The [for] loop: [iters] is the number of values [range] still has to
    deliver, [period] the next of them; the result is what the remaining
    iterations append to [data].  The balances are exact: after a row that
    pays off the balance to the last digit the break test fires, where the
    binary64 subtraction may leave a remainder and the loop append one more
    row ([Binary64.schedule_loop] below). *)
Fixpoint schedule_loop (payment rate : R) (iters : nat) (period : Z)
  (current_balance : R) : list Row :=
  match iters with
  | O => []
  | S iters' =>
      if Rle_dec current_balance 0 then []
      else
        let row := period_row payment rate period current_balance in
        row :: schedule_loop payment rate iters' (period + 1) (Ending_Balance row)
  end.

(** The list [data] when the loop is left; [range(1, total_periods + 2)] has
    [max 0 (total_periods + 1)] elements. *)
Definition schedule_data (self : MortgagePayment) (principal payment rate : R)
  (periods_per_year : Z) : list Row :=
  let total_periods := (amortization_years self * periods_per_year)%Z in
  schedule_loop payment rate (Z.to_nat (total_periods + 1)) 1 principal.

(** Round half to even, as [numpy.rint]. *)
Definition rint (x : R) : Z :=
  let f := Int_part x in
  let d := x - IZR f in
  if Rlt_dec d (1 / 2) then f
  else if Rlt_dec (1 / 2) d then (f + 1)%Z
  else if Z.even f then f else (f + 1)%Z.

(** [.round(2)] on a float column. *)
Definition round2 (x : R) : R := IZR (rint (x * 100)) / 100.

(** [DataFrame.round(2)] on one row: the integer column is left alone. *)
Definition round_row (r : Row) : Row :=
  {| Period := Period r;
     Beginning_Balance := round2 (Beginning_Balance r);
     Payment := round2 (Payment r);
     Principal_Paid := round2 (Principal_Paid r);
     Interest_Paid := round2 (Interest_Paid r);
     Ending_Balance := round2 (Ending_Balance r) |}.

(** Selecting the six columns of a frame built from an empty list raises
    [KeyError]. *)
Definition build_amortization_schedule (self : MortgagePayment)
  (principal payment rate : R) (periods_per_year : Z) : result (list Row) :=
  match schedule_data self principal payment rate periods_per_year with
  | [] => Raise KeyError
  | data => Ok (map round_row data)
  end.

(** ** Scheme orchestrator *)

Record Scheme : Type := {
  name : string;
  payment : R;
  rate : R;
  periods_per_year : Z
}.

(** The list [schemes] of [generate_payment_schedule]. *)
Definition schemes (self : MortgagePayment) (payment_values : R * R * R * R * R * R)
  : list Scheme :=
  let '(monthly_pmt, semi_monthly_pmt, bi_weekly_pmt, accelerated_bi_weekly_pmt,
        weekly_pmt, accelerated_weekly_pmt) := payment_values in
  let acc_bi_weekly_pmt := monthly_pmt / 2 in
  let acc_weekly_pmt := monthly_pmt / 4 in
  [ {| name := "Monthly"; payment := monthly_pmt;
       rate := monthly_rate self; periods_per_year := 12 |};
    {| name := "Semi-Monthly"; payment := semi_monthly_pmt;
       rate := semi_monthly_rate self; periods_per_year := 24 |};
    {| name := "Bi-Weekly"; payment := bi_weekly_pmt;
       rate := bi_weekly_rate self; periods_per_year := 26 |};
    {| name := "Accelerated Bi-Weekly"; payment := acc_bi_weekly_pmt;
       rate := bi_weekly_rate self; periods_per_year := 26 |};
    {| name := "Weekly"; payment := weekly_pmt;
       rate := weekly_rate self; periods_per_year := 52 |};
    {| name := "Accelerated Weekly"; payment := acc_weekly_pmt;
       rate := weekly_rate self; periods_per_year := 52 |} ].

(** The dictionary [schedules] once the loop over [schemes] has finished,
    in insertion order (the six names are distinct).  Writing the workbook
    and drawing the chart are left out. *)
Definition generate_payment_schedule (self : MortgagePayment) (principal : R)
  : result (list (string * list Row)) :=
  payment_values <- payments self principal ;;
  mapM (fun scheme =>
          df <- build_amortization_schedule self principal (payment scheme)
                  (rate scheme) (periods_per_year scheme) ;;
          Ok (name scheme, df))
       (schemes self payment_values).

(** ** Auxiliary definitions used in the statements *)

(** [1 + (1+r) + ... + (1+r)^(n-1)], the annuity accumulation factor. *)
Fixpoint geom (r : R) (n : nat) : R :=
  match n with
  | O => 0
  | S n' => geom r n' + (1 + r) ^ n'
  end.

(** The last row of a schedule, if it has one. *)
Fixpoint last_row (rows : list Row) : option Row :=
  match rows with
  | [] => None
  | r :: rows' =>
      match rows' with
      | [] => Some r
      | _ :: _ => last_row rows'
      end
  end.

(** Sum of a column. *)
Definition column_sum (col : Row -> R) (rows : list Row) : R :=
  fold_right (fun r acc => col r + acc) 0 rows.



(** ** The files written by the orchestrator *)

(** [d[key] = v] on a dictionary kept in insertion order: an existing key
    keeps its place, a new one goes to the end. *)
Fixpoint dict_set {V : Type} (d : list (string * V)) (key : string) (v : V)
  : list (string * V) :=
  match d with
  | [] => [(key, v)]
  | (k', v') :: d' =>
      if String.eqb k' key then (k', v) :: d'
      else (k', v') :: dict_set d' key v
  end.

(** What reaches the disk: the workbook with its sheets in order, and the
    figure with one labelled line of (period, ending balance) points for
    each schedule.  Both files are opened for writing, so each event
    replaces the file. *)
Inductive Effect : Type :=
| ExcelWrite (filename : string) (sheets : list (string * list Row))
| SaveFig (filename : string) (lines : list (string * list (Z * R))).

Definition plot_lines (schedules : list (string * list Row))
  : list (string * list (Z * R)) :=
  map (fun entry =>
         (fst entry, map (fun r => (Period r, Ending_Balance r)) (snd entry)))
      schedules.

(** The loop over [schemes], with the dictionary [schedules] passed along:
    the events in the order they happen, and the dictionary at the end or
    the exception that stopped the loop.  The [print] calls are left out,
    and a write is taken to succeed. *)
Fixpoint run_schemes (self : MortgagePayment) (principal : R)
  (todo : list Scheme) (schedules : list (string * list Row))
  : list Effect * result (list (string * list Row)) :=
  match todo with
  | [] => ([], Ok schedules)
  | scheme :: todo' =>
      match build_amortization_schedule self principal (payment scheme)
              (rate scheme) (periods_per_year scheme) with
      | Raise e => ([], Raise e)
      | Ok df =>
          let schedules' := dict_set schedules (name scheme) df in
          let rest := run_schemes self principal todo' schedules' in
          (ExcelWrite "Amortization_Schedules.xlsx" schedules'
             :: SaveFig "Loan_Balance_Decline.png" (plot_lines schedules')
             :: fst rest,
           snd rest)
      end
  end.

(** [generate_payment_schedule] with its writes. *)
Definition generate_payment_schedule_effects (self : MortgagePayment)
  (principal : R) : list Effect * result (list (string * list Row)) :=
  match payments self principal with
  | Raise e => ([], Raise e)
  | Ok payment_values =>
      run_schemes self principal (schemes self payment_values) []
  end.

(** ** The schedule loop on binary64 numbers *)

Module Binary64.

Import PrimFloat.


Record Row : Type := {
  Period : Z;
  Beginning_Balance : float;
  Payment : float;
  Principal_Paid : float;
  Interest_Paid : float;
  Ending_Balance : float
}.

(** The row of the final payment and the row of a regular payment. *)
Definition final_row (period : Z) (current_balance interest_paid : float) : Row :=
  {| Period := period;
     Beginning_Balance := current_balance;
     Payment := add current_balance interest_paid;
     Principal_Paid := current_balance;
     Interest_Paid := interest_paid;
     Ending_Balance := zero |}.

Definition regular_row (payment : float) (period : Z)
  (current_balance interest_paid : float) : Row :=
  {| Period := period;
     Beginning_Balance := current_balance;
     Payment := payment;
     Principal_Paid := sub payment interest_paid;
     Interest_Paid := interest_paid;
     Ending_Balance := sub current_balance (sub payment interest_paid) |}.

(** The body of the loop after the break test. *)
Definition period_row (payment rate : float) (period : Z) (current_balance : float)
  : Row :=
  let interest_paid := mul current_balance rate in
  if ltb (add current_balance interest_paid) payment then
    final_row period current_balance interest_paid
  else
    regular_row payment period current_balance interest_paid.

Fixpoint schedule_loop (payment rate : float) (iters : nat) (period : Z)
  (current_balance : float) : list Row :=
  match iters with
  | O => []
  | S iters' =>
      if leb current_balance zero then []
      else
        let row := period_row payment rate period current_balance in
        row :: schedule_loop payment rate iters' (period + 1) (Ending_Balance row)
  end.

Definition schedule_data (amortization_years : Z) (principal payment rate : float)
  (periods_per_year : Z) : list Row :=
  let total_periods := (amortization_years * periods_per_year)%Z in
  schedule_loop payment rate (Z.to_nat (total_periods + 1)) 1 principal.

End Binary64.

(** * Rate converter *)

Section RateConverter.

Lemma Rpower_base_one (y : R) : Rpower 1 y = 1.
Proof. unfold Rpower. rewrite ln_1, Rmult_0_r. exact exp_0. Qed.

Lemma IZR_pos_of (p : Z) : (0 < p)%Z -> 0 < IZR p.
Proof. intros H. now apply IZR_lt. Qed.

Lemma period_rate_zero (p : Z) : _period_rate 0 p = 0.
Proof.
  unfold _period_rate.
  replace (1 + 0 / 2) with 1 by lra.
  rewrite Rpower_base_one. lra.
Qed.

Lemma period_rate_pos (q : R) (p : Z) :
  0 < q -> (0 < p)%Z -> 0 < _period_rate q p.
Proof.
  intros Hq Hp. unfold _period_rate.
  pose proof (IZR_pos_of p Hp) as Hp'.
  assert (H : Rpower (1 + q / 2) 0 < Rpower (1 + q / 2) (2 / IZR p)).
  { apply Rpower_lt; [lra|]. apply Rdiv_lt_0_compat; lra. }
  rewrite Rpower_O in H by lra. lra.
Qed.

Lemma period_rate_nonneg (q : R) (p : Z) :
  0 <= q -> (0 < p)%Z -> 0 <= _period_rate q p.
Proof.
  intros [Hq | <-] Hp.
  - left. now apply period_rate_pos.
  - rewrite period_rate_zero. lra.
Qed.

(** Compounding the periodic rate over half a year ([p/2] periods). *)
Lemma period_rate_half_year (q : R) (p : Z) :
  -2 < q -> (p <> 0)%Z ->
  Rpower (1 + _period_rate q p) (IZR p / 2) = 1 + q / 2.
Proof.
  intros Hq Hp. unfold _period_rate.
  replace (1 + (Rpower (1 + q / 2) (2 / IZR p) - 1))
    with (Rpower (1 + q / 2) (2 / IZR p)) by lra.
  rewrite Rpower_mult.
  replace (2 / IZR p * (IZR p / 2)) with 1.
  - apply Rpower_1. lra.
  - field. now apply not_0_IZR.
Qed.

(** Compounding over a whole year: [p] periods give the square of the
    semi-annual factor. *)
Lemma period_rate_full_year (q : R) (p : Z) :
  -2 < q -> (0 < p)%Z ->
  (1 + _period_rate q p) ^ Z.to_nat p = (1 + q / 2) ^ 2.
Proof.
  intros Hq Hp. unfold _period_rate.
  replace (1 + (Rpower (1 + q / 2) (2 / IZR p) - 1))
    with (Rpower (1 + q / 2) (2 / IZR p)) by lra.
  rewrite <- Rpower_pow by apply exp_pos.
  rewrite Rpower_mult, INR_IZR_INZ, Z2Nat.id by lia.
  replace (2 / IZR p * IZR p) with (INR 2).
  - apply Rpower_pow. lra.
  - simpl. field. apply not_0_IZR. lia.
Qed.

(** Second-order Bernoulli bound. *)
Lemma binomial_lower_bound (t : R) (n : nat) :
  0 <= t ->
  1 + INR n * t + INR n * (INR n - 1) / 2 * (t * t) <= (1 + t) ^ n.
Proof.
  intros Ht. induction n as [|n IH].
  - simpl. lra.
  - rewrite S_INR. simpl pow.
    pose proof (pos_INR n) as Hn.
    assert (Hc : 0 <= INR n * (INR n - 1)).
    { destruct n as [|n']; [simpl; lra|].
      rewrite S_INR. pose proof (pos_INR n'). nra. }
    assert (Ht2 : 0 <= t * t) by nra.
    assert (Ht3 : 0 <= INR n * (INR n - 1) / 2 * (t * t) * t).
    { apply Rmult_le_pos; [|exact Ht]. apply Rmult_le_pos; [lra|exact Ht2]. }
    assert (H1 : (1 + t) * (1 + INR n * t + INR n * (INR n - 1) / 2 * (t * t))
                 <= (1 + t) * (1 + t) ^ n).
    { apply Rmult_le_compat_l; lra. }
    nra.
Qed.

(** For three or more periods a year the periodic rate is strictly below
    the simple quotient. *)
Lemma period_rate_lt_simple (q : R) (p : Z) :
  0 < q -> (3 <= p)%Z -> _period_rate q p < q / IZR p.
Proof.
  intros Hq Hp.
  assert (Hp' : 3 <= IZR p) by now apply IZR_le.
  destruct (Rlt_dec (_period_rate q p) (q / IZR p)) as [|Hge]; [assumption|].
  exfalso. apply Rnot_lt_le in Hge.
  assert (Ht : 0 < q / IZR p) by (apply Rdiv_lt_0_compat; lra).
  assert (Hpow : (1 + q / IZR p) ^ Z.to_nat p <= (1 + _period_rate q p) ^ Z.to_nat p).
  { apply pow_incr. lra. }
  rewrite period_rate_full_year in Hpow by (lra || lia).
  pose proof (binomial_lower_bound (q / IZR p) (Z.to_nat p) (Rlt_le _ _ Ht)) as Hb.
  rewrite INR_IZR_INZ, Z2Nat.id in Hb by lia.
  assert (E1 : IZR p * (q / IZR p) = q) by (field; lra).
  assert (E2 : IZR p * (IZR p - 1) / 2 * (q / IZR p * (q / IZR p))
               = (q * q) / 2 - (q * q) / 2 * / IZR p) by (field; lra).
  rewrite E1, E2 in Hb.
  assert (Hinv : / IZR p <= / 3) by (apply Rinv_le_contravar; lra).
  assert (Hqq : 0 < q * q) by nra.
  nra.
Qed.

Lemma period_rate_annual (q : R) : -2 < q -> _period_rate q 1 = q + q * q / 4.
Proof.
  intros Hq. unfold _period_rate.
  replace (2 / 1) with (INR 2) by (simpl; lra).
  rewrite Rpower_pow by lra. simpl. field.
Qed.

Lemma period_rate_semiannual (q : R) : -2 < q -> _period_rate q 2 = q / 2.
Proof.
  intros Hq. unfold _period_rate.
  replace (2 / 2) with 1 by lra.
  rewrite Rpower_1 by lra. lra.
Qed.

Lemma pow_lt_strict (a b : R) (n : nat) :
  0 <= a -> a < b -> (0 < n)%nat -> a ^ n < b ^ n.
Proof.
  intros Ha Hab Hn. induction n as [|n IH]; [lia|].
  destruct n as [|n].
  - simpl. lra.
  - assert (IH' : a ^ S n < b ^ S n) by (apply IH; lia).
    assert (Hpa : 0 <= a ^ S n) by (apply pow_le; assumption).
    change (a * a ^ S n < b * b ^ S n).
    apply Rle_lt_trans with (a * b ^ S n).
    + apply Rmult_le_compat_l; lra.
    + apply Rmult_lt_compat_r; lra.
Qed.

Lemma pow_inj_nonneg (a b : R) (n : nat) :
  0 <= a -> 0 <= b -> (0 < n)%nat -> a ^ n = b ^ n -> a = b.
Proof.
  intros Ha Hb Hn E.
  destruct (Rtotal_order a b) as [Hlt | [Heq | Hgt]]; [|assumption|].
  - pose proof (pow_lt_strict a b n Ha Hlt Hn). lra.
  - pose proof (pow_lt_strict b a n Hb Hgt Hn). lra.
Qed.

(** The periodic rate is the only rate above -1 that compounds over the
    [p] periods of a year to the square of the semi-annual factor. *)
Lemma period_rate_unique (q : R) (p : Z) (x : R) :
  -2 < q -> (0 < p)%Z -> -1 < x ->
  (1 + x) ^ Z.to_nat p = (1 + q / 2) ^ 2 -> x = _period_rate q p.
Proof.
  intros Hq Hp Hx E.
  rewrite <- (period_rate_full_year q p Hq Hp) in E.
  apply pow_inj_nonneg in E; [lra | lra | | lia].
  unfold _period_rate, Rpower.
  pose proof (exp_pos (2 / IZR p * ln (1 + q / 2))). lra.
Qed.

End RateConverter.

(** * Payment solver *)

Section PaymentSolver.

Lemma geom_closed_form (r : R) (n : nat) : r * geom r n = (1 + r) ^ n - 1.
Proof.
  induction n as [|n IH]; simpl.
  - lra.
  - rewrite Rmult_plus_distr_l, IH. ring.
Qed.

Lemma geom_zero_rate (n : nat) : geom 0 n = INR n.
Proof.
  induction n as [|n IH].
  - reflexivity.
  - rewrite S_INR. simpl. rewrite IH, Rplus_0_r, pow1. reflexivity.
Qed.



Lemma powerRZ_to_nat (x : R) (n : Z) :
  (0 <= n)%Z -> powerRZ x n = x ^ Z.to_nat n.
Proof.
  intros Hn. rewrite pow_powerRZ, Z2Nat.id by assumption. reflexivity.
Qed.

(** A positive base other than 1 never has a non-trivial power equal to 1. *)
Lemma powerRZ_gt_one (x : R) (k : Z) : 1 < x -> (0 < k)%Z -> 1 < powerRZ x k.
Proof.
  intros Hx Hk. rewrite powerRZ_to_nat by lia.
  apply Rlt_pow_R1; [assumption | lia].
Qed.

Lemma powerRZ_ne_one_gt (x : R) (k : Z) : 1 < x -> k <> 0%Z -> powerRZ x k <> 1.
Proof.
  intros Hx Hk.
  destruct (Z_lt_le_dec 0 k) as [Hpos | Hneg].
  - pose proof (powerRZ_gt_one x k Hx Hpos). lra.
  - assert (Hk' : (0 < - k)%Z) by lia.
    pose proof (powerRZ_gt_one x (- k) Hx Hk') as H.
    rewrite powerRZ_neg' in H.
    intros E. rewrite E, Rinv_1 in H. lra.
Qed.

Lemma powerRZ_ne_one (x : R) (k : Z) :
  0 < x -> x <> 1 -> k <> 0%Z -> powerRZ x k <> 1.
Proof.
  intros Hx Hx1 Hk.
  destruct (Rlt_dec 1 x) as [Hgt | Hle].
  - now apply powerRZ_ne_one_gt.
  - assert (Hinv : 1 < / x).
    { rewrite <- Rinv_1. apply Rinv_lt_contravar; lra. }
    pose proof (powerRZ_ne_one_gt (/ x) k Hinv Hk) as H.
    rewrite powerRZ_inv' in H.
    intros E. apply H. rewrite E. apply Rinv_1.
Qed.

Lemma float_max_ge_one : 1 <= float_max.
Proof.
  unfold float_max.
  assert (H1 : 1 <= 2 ^ 1023) by (apply pow_R1_Rle; lra).
  assert (H2 : 1 <= 2 ^ 52) by (apply pow_R1_Rle; lra).
  assert (H3 : / 2 ^ 52 <= 1).
  { rewrite <- Rinv_1. apply Rinv_le_contravar; lra. }
  generalize dependent (2 ^ 1023). generalize dependent (2 ^ 52).
  intros a Ha H3 b Hb. nra.
Qed.


Lemma py_pow_int_in_range (x : R) (k : Z) :
  0 < x -> powerRZ x k <= float_max -> py_pow_int x k = Ok (powerRZ x k).
Proof.
  intros Hx Hmax. unfold py_pow_int.
  destruct (Req_dec_T x 0) as [E | _]; [lra|].
  destruct (Rle_dec _ float_max) as [_ | Hgt]; [reflexivity|].
  exfalso. apply Hgt. rewrite Rabs_pos_eq; [assumption|].
  apply Rlt_le, powerRZ_lt. assumption.
Qed.






Variable self : MortgagePayment.

Lemma calculate_payment_zero_rate (principal : R) (m : Z) :
  (amortization_years self * m <> 0)%Z ->
  calculate_payment self principal 0 m
  = Ok (principal / IZR (amortization_years self * m)).
Proof.
  intros Hn. unfold calculate_payment, py_div.
  destruct (Req_dec_T 0 0) as [_ | Hne]; [|now elim Hne].
  destruct (Req_dec_T _ 0) as [E | _]; [|reflexivity].
  apply eq_IZR_R0 in E. contradiction.
Qed.

(** With a rate above -1 and a power within the binary64 range the
    solver returns the annuity formula. *)
Lemma calculate_payment_in_range (principal rate : R) (m : Z) :
  -1 < rate -> rate <> 0 -> (amortization_years self * m <> 0)%Z ->
  powerRZ (1 + rate) (- (amortization_years self * m)) <= float_max ->
  calculate_payment self principal rate m
  = Ok (principal * rate
        / (1 - powerRZ (1 + rate) (- (amortization_years self * m)))).
Proof.
  intros Hr Hr0 Hn Hmax. unfold calculate_payment, bind.
  destruct (Req_dec_T rate 0) as [E | _]; [contradiction|].
  rewrite py_pow_int_in_range by (lra || assumption).
  unfold py_div.
  destruct (Req_dec_T _ 0) as [E | _]; [|reflexivity].
  exfalso.
  apply (powerRZ_ne_one (1 + rate) (- (amortization_years self * m))); lra || lia.
Qed.


(** A positive rate over a positive number of periods keeps the power in
    [(0, 1)], far inside the range. *)
Lemma discount_in_range (rate : R) (n : Z) :
  0 < rate -> (0 < n)%Z -> powerRZ (1 + rate) (- n) <= float_max.
Proof.
  intros Hr Hn.
  pose proof (powerRZ_gt_one (1 + rate) n ltac:(lra) Hn) as H.
  rewrite powerRZ_neg'.
  assert (/ powerRZ (1 + rate) n < / 1) by (apply Rinv_lt_contravar; lra).
  rewrite Rinv_1 in *. pose proof float_max_ge_one. lra.
Qed.

Lemma calculate_payment_nonzero_rate (principal rate : R) (m : Z) :
  0 < rate -> (0 < amortization_years self * m)%Z ->
  calculate_payment self principal rate m
  = Ok (principal * rate
        / (1 - powerRZ (1 + rate) (- (amortization_years self * m)))).
Proof.
  intros Hr Hn.
  apply calculate_payment_in_range; [lra | lra | lia |].
  now apply discount_in_range.
Qed.



(** The level payment accumulates to the accumulated principal: the
    annuity equation [payment * geom = principal * (1+rate)^n]. *)
Lemma level_payment_equation (principal rate level : R) (m : Z) :
  0 <= rate -> (0 < amortization_years self * m)%Z ->
  calculate_payment self principal rate m = Ok level ->
  level * geom rate (Z.to_nat (amortization_years self * m))
  = principal * (1 + rate) ^ Z.to_nat (amortization_years self * m).
Proof.
  intros Hr Hn Hcalc.
  set (n := (amortization_years self * m)%Z) in *.
  assert (HN : INR (Z.to_nat n) = IZR n).
  { rewrite INR_IZR_INZ, Z2Nat.id; [reflexivity | lia]. }
  assert (HnR : 0 < IZR n) by now apply IZR_lt.
  destruct Hr as [Hr | <-].
  - rewrite calculate_payment_nonzero_rate in Hcalc by (lra || (fold n; lia)).
    fold n in Hcalc. injection Hcalc as <-.
    rewrite powerRZ_neg', powerRZ_to_nat by lia.
    pose proof (geom_closed_form rate (Z.to_nat n)) as Hg.
    assert (Hx : 1 < (1 + rate) ^ Z.to_nat n).
    { apply Rlt_pow_R1; [lra|]. clearbody n. lia. }
    set (x := (1 + rate) ^ Z.to_nat n) in *.
    apply Rmult_eq_reg_l with (r := rate); [|lra].
    transitivity (principal * rate / (1 - / x) * (rate * geom rate (Z.to_nat n)));
      [ring|].
    rewrite Hg. field. split; lra.
  - rewrite calculate_payment_zero_rate in Hcalc by (fold n; lia).
    fold n in Hcalc. injection Hcalc as <-.
    rewrite geom_zero_rate, HN, Rplus_0_r, pow1. field. lra.
Qed.


End PaymentSolver.

(** * Schedule builder: the loop *)

Section ScheduleLoop.

Variables pay rt : R.

Lemma period_row_final (period : Z) (c : R) :
  c + c * rt < pay ->
  period_row pay rt period c
  = {| Period := period; Beginning_Balance := c; Payment := c + c * rt;
       Principal_Paid := c; Interest_Paid := c * rt; Ending_Balance := 0 |}.
Proof.
  intros H. unfold period_row.
  destruct (Rlt_dec (c + c * rt) pay); [reflexivity | contradiction].
Qed.

Lemma period_row_regular (period : Z) (c : R) :
  pay <= c + c * rt ->
  period_row pay rt period c
  = {| Period := period; Beginning_Balance := c; Payment := pay;
       Principal_Paid := pay - c * rt; Interest_Paid := c * rt;
       Ending_Balance := c - (pay - c * rt) |}.
Proof.
  intros H. unfold period_row.
  destruct (Rlt_dec (c + c * rt) pay); [lra | reflexivity].
Qed.

Lemma period_row_cases (period : Z) (c : R) :
  (c + c * rt < pay /\
   period_row pay rt period c
   = {| Period := period; Beginning_Balance := c; Payment := c + c * rt;
        Principal_Paid := c; Interest_Paid := c * rt; Ending_Balance := 0 |})
  \/
  (pay <= c + c * rt /\
   period_row pay rt period c
   = {| Period := period; Beginning_Balance := c; Payment := pay;
        Principal_Paid := pay - c * rt; Interest_Paid := c * rt;
        Ending_Balance := c - (pay - c * rt) |}).
Proof.
  destruct (Rlt_dec (c + c * rt) pay) as [Hlt | Hge].
  - left. split; [assumption | now apply period_row_final].
  - right. apply Rnot_lt_le in Hge. split; [assumption | now apply period_row_regular].
Qed.

(** What every row satisfies, whichever branch built it. *)
Lemma period_row_facts (period : Z) (c : R) :
  let row := period_row pay rt period c in
  Period row = period /\
  Beginning_Balance row = c /\
  Interest_Paid row = c * rt /\
  Ending_Balance row = c - Principal_Paid row /\
  0 <= Ending_Balance row.
Proof.
  destruct (period_row_cases period c) as [[H E] | [H E]];
    cbv zeta; rewrite E; simpl; repeat split; lra.
Qed.

Lemma schedule_loop_stop (iters : nat) (period : Z) (c : R) :
  c <= 0 -> schedule_loop pay rt iters period c = [].
Proof.
  intros H. destruct iters as [|k]; [reflexivity|]. simpl.
  destruct (Rle_dec c 0); [reflexivity | contradiction].
Qed.

Lemma schedule_loop_step (k : nat) (period : Z) (c : R) :
  0 < c ->
  schedule_loop pay rt (S k) period c
  = period_row pay rt period c
    :: schedule_loop pay rt k (period + 1)
         (Ending_Balance (period_row pay rt period c)).
Proof.
  intros H. simpl. destruct (Rle_dec c 0); [lra | reflexivity].
Qed.

(** The loop appends nothing, or starts from a positive balance. *)
Lemma schedule_loop_cases (iters : nat) (period : Z) (c : R) :
  schedule_loop pay rt iters period c = []
  \/ exists k, iters = S k /\ 0 < c /\
       schedule_loop pay rt iters period c
       = period_row pay rt period c
         :: schedule_loop pay rt k (period + 1)
              (Ending_Balance (period_row pay rt period c)).
Proof.
  destruct iters as [|k]; [now left|].
  destruct (Rle_dec c 0) as [Hle | Hgt].
  - left. now apply schedule_loop_stop.
  - right. exists k. apply Rnot_le_lt in Hgt.
    repeat split; [assumption | now apply schedule_loop_step].
Qed.

Lemma schedule_loop_nonempty (k : nat) (period : Z) (c : R) :
  0 < c -> schedule_loop pay rt (S k) period c <> [].
Proof. intros H. rewrite schedule_loop_step by assumption. discriminate. Qed.

Lemma schedule_loop_length (iters : nat) (period : Z) (c : R) :
  (length (schedule_loop pay rt iters period c) <= iters)%nat.
Proof.
  revert period c. induction iters as [|k IH]; intros period c; [simpl; lia|].
  destruct (schedule_loop_cases (S k) period c) as [E | (k' & Ek & Hc & E)].
  - rewrite E. simpl. lia.
  - injection Ek as <-. rewrite E. simpl. specialize (IH (period + 1)%Z
      (Ending_Balance (period_row pay rt period c))). lia.
Qed.

(** The short final row ends the loop. *)
Lemma schedule_loop_final (k : nat) (period : Z) (c : R) :
  0 < c -> c + c * rt < pay ->
  schedule_loop pay rt (S k) period c
  = [ {| Period := period; Beginning_Balance := c; Payment := c + c * rt;
         Principal_Paid := c; Interest_Paid := c * rt; Ending_Balance := 0 |} ].
Proof.
  intros Hc Hlt. rewrite schedule_loop_step by assumption.
  rewrite period_row_final by assumption. simpl Ending_Balance.
  rewrite schedule_loop_stop by lra. reflexivity.
Qed.

Lemma schedule_loop_first (iters : nat) (period : Z) (c : R) (r : Row) :
  nth_error (schedule_loop pay rt iters period c) 0 = Some r ->
  Beginning_Balance r = c /\ Period r = period.
Proof.
  destruct (schedule_loop_cases iters period c) as [E | (k & _ & _ & E)];
    rewrite E; simpl; [discriminate|].
  intros [= <-]. pose proof (period_row_facts period c) as H. cbv zeta in H. tauto.
Qed.

Lemma schedule_loop_chain (iters : nat) (period : Z) (c : R) (i : nat) (r r' : Row) :
  nth_error (schedule_loop pay rt iters period c) i = Some r ->
  nth_error (schedule_loop pay rt iters period c) (S i) = Some r' ->
  Beginning_Balance r' = Ending_Balance r.
Proof.
  revert period c i. induction iters as [|k IH]; intros period c i.
  - destruct i; discriminate.
  - destruct (schedule_loop_cases (S k) period c) as [E | (k' & Ek & Hc & E)];
      rewrite E; [destruct i; discriminate|].
    injection Ek as <-. destruct i as [|i]; simpl.
    + intros [= <-] H. now apply schedule_loop_first in H.
    + apply IH.
Qed.

Lemma schedule_loop_period (iters : nat) (period : Z) (c : R) (i : nat) (r : Row) :
  nth_error (schedule_loop pay rt iters period c) i = Some r ->
  Period r = (period + Z.of_nat i)%Z.
Proof.
  revert period c i. induction iters as [|k IH]; intros period c i.
  - destruct i; discriminate.
  - destruct (schedule_loop_cases (S k) period c) as [E | (k' & Ek & Hc & E)];
      rewrite E; [destruct i; discriminate|].
    injection Ek as <-. destruct i as [|i]; simpl nth_error.
    + intros [= <-]. pose proof (period_row_facts period c) as H. cbv zeta in H.
      destruct H as [-> _]. lia.
    + intros H. apply IH in H. lia.
Qed.

Lemma schedule_loop_rows (iters : nat) (period : Z) (c : R) (r : Row) :
  In r (schedule_loop pay rt iters period c) ->
  Interest_Paid r = Beginning_Balance r * rt /\
  Ending_Balance r = Beginning_Balance r - Principal_Paid r /\
  0 <= Ending_Balance r /\
  (Payment r = pay \/ Payment r = Beginning_Balance r + Interest_Paid r).
Proof.
  revert period c. induction iters as [|k IH]; intros period c; [contradiction|].
  destruct (schedule_loop_cases (S k) period c) as [E | (k' & Ek & Hc & E)];
    rewrite E; [contradiction|].
  injection Ek as <-. intros [<- | Hin]; [|now apply IH in Hin].
  destruct (period_row_cases period c) as [[H Er] | [H Er]];
    rewrite Er; simpl; repeat split; lra.
Qed.


(** A row whose balance plus interest is below the payment is the short
    row, and it is the last one. *)
Lemma schedule_loop_short_row (iters : nat) (period : Z) (c : R) (i : nat) (r : Row) :
  nth_error (schedule_loop pay rt iters period c) i = Some r ->
  Beginning_Balance r + Interest_Paid r < pay ->
  length (schedule_loop pay rt iters period c) = S i /\
  Payment r = Beginning_Balance r + Interest_Paid r /\
  Principal_Paid r = Beginning_Balance r /\
  Ending_Balance r = 0.
Proof.
  revert period c i. induction iters as [|k IH]; intros period c i.
  - destruct i; discriminate.
  - destruct (schedule_loop_cases (S k) period c) as [E | (k' & Ek & Hc & E)];
      rewrite E; [destruct i; discriminate|].
    injection Ek as <-. destruct i as [|i]; simpl nth_error; simpl length.
    + intros [= <-] Hlt.
      destruct (period_row_cases period c) as [[H Er] | [H Er]];
        rewrite Er in *; simpl in *; [|lra].
      rewrite schedule_loop_stop by lra. simpl. repeat split; reflexivity.
    + intros Hr Hlt. destruct (IH _ _ _ Hr Hlt) as (Hlen & Hrest).
      split; [lia | exact Hrest].
Qed.

End ScheduleLoop.

(** * Schedule builder: how the loop ends *)

Section ScheduleEnd.

Variables pay rt : R.

Lemma last_row_cons (r : Row) (rows : list Row) :
  rows <> [] -> last_row (r :: rows) = last_row rows.
Proof. destruct rows; [congruence | reflexivity]. Qed.

Lemma last_row_nth (rows : list Row) (r : Row) :
  last_row rows = Some r <->
  (exists i, nth_error rows i = Some r /\ length rows = S i).
Proof.
  revert r. induction rows as [|a rows IH]; intros r.
  - simpl. split; [discriminate | intros (i & H & _); destruct i; discriminate].
  - destruct rows as [|b rows].
    + simpl. split.
      * intros [= <-]. exists 0%nat. split; reflexivity.
      * intros (i & H & Hl). injection Hl as <-. simpl in H. congruence.
    + rewrite last_row_cons by discriminate. rewrite IH. split.
      * intros (i & H & Hl). exists (S i). split; [exact H | simpl in *; lia].
      * intros (i & H & Hl). destruct i as [|i]; [simpl in Hl; lia|].
        exists i. split; [exact H | simpl in *; lia].
Qed.


(** Either the balance is driven to zero, or every iteration was spent on
    a regular payment and the balance follows the closed form of a loan
    that is still outstanding. *)
Lemma schedule_loop_end (iters : nat) (period : Z) (c : R) (r : Row) :
  last_row (schedule_loop pay rt iters period c) = Some r ->
  Ending_Balance r = 0
  \/ (0 < Ending_Balance r /\
      Ending_Balance r = c * (1 + rt) ^ iters - pay * geom rt iters /\
      length (schedule_loop pay rt iters period c) = iters).
Proof.
  revert period c. induction iters as [|k IH]; intros period c; [discriminate|].
  destruct (schedule_loop_cases pay rt (S k) period c) as [E | (k' & Ek & Hc & E)];
    rewrite E; [discriminate|].
  injection Ek as <-.
  pose proof (period_row_facts pay rt period c) as Hf. cbv zeta in Hf.
  destruct Hf as (_ & _ & _ & _ & Hnn).
  set (row := period_row pay rt period c) in *.
  assert (Hreg : 0 < Ending_Balance row ->
                 Ending_Balance row = c * (1 + rt) - pay).
  { intros Hpos. subst row.
    destruct (period_row_cases pay rt period c) as [[H Er] | [H Er]];
      rewrite Er in *; simpl in *; lra. }
  destruct (schedule_loop_cases pay rt k (period + 1) (Ending_Balance row))
    as [E' | (k' & Ek & He & E')].
  - rewrite E'. intros [= <-]. simpl length.
    destruct Hnn as [Hpos | Hz]; [|now left].
    right. destruct k as [|k].
    + split; [assumption|]. split; [|reflexivity].
      rewrite (Hreg Hpos). simpl. ring.
    + exfalso. now apply (schedule_loop_nonempty pay rt k (period + 1) _ Hpos).
  - rewrite last_row_cons by (rewrite E'; discriminate).
    intros Hlast. destruct (IH _ _ Hlast) as [Hz | (Hpos & Hval & Hlen)];
      [now left|].
    right. split; [assumption|]. split; [|simpl; now rewrite Hlen].
    rewrite Hval, (Hreg He). simpl. ring.
Qed.


Lemma column_sum_cons (col : Row -> R) (r : Row) (rows : list Row) :
  column_sum col (r :: rows) = col r + column_sum col rows.
Proof. reflexivity. Qed.

(** The principal column telescopes. *)
Lemma schedule_loop_principal_sum (iters : nat) (period : Z) (c : R) (r : Row) :
  last_row (schedule_loop pay rt iters period c) = Some r ->
  column_sum Principal_Paid (schedule_loop pay rt iters period c)
  = c - Ending_Balance r.
Proof.
  revert period c. induction iters as [|k IH]; intros period c; [discriminate|].
  destruct (schedule_loop_cases pay rt (S k) period c) as [E | (k' & Ek & Hc & E)];
    rewrite E; [discriminate|].
  injection Ek as <-.
  pose proof (period_row_facts pay rt period c) as Hf. cbv zeta in Hf.
  destruct Hf as (_ & _ & _ & Hend & _).
  set (row := period_row pay rt period c) in *.
  destruct (schedule_loop_cases pay rt k (period + 1) (Ending_Balance row))
    as [E' | (k' & Ek & He & E')].
  - rewrite E'. intros [= <-]. unfold column_sum. simpl. lra.
  - rewrite last_row_cons by (rewrite E'; discriminate). intros Hlast.
    rewrite column_sum_cons, (IH _ _ Hlast). lra.
Qed.

End ScheduleEnd.

(** * Rounding of the returned table *)

Section Rounding.

Lemma rint_error (x : R) : Rabs (IZR (rint x) - x) <= 1 / 2.
Proof.
  unfold rint. destruct (base_Int_part x) as [Hlo Hhi].
  set (f := Int_part x) in *.
  destruct (Rlt_dec (x - IZR f) (1 / 2)) as [H1 | H1].
  - apply Rabs_le. lra.
  - destruct (Rlt_dec (1 / 2) (x - IZR f)) as [H2 | H2].
    + rewrite plus_IZR. apply Rabs_le. lra.
    + destruct (Z.even f); [|rewrite plus_IZR]; apply Rabs_le; lra.
Qed.

Lemma Rabs_bound (a b : R) : Rabs a <= b -> - b <= a <= b.
Proof. unfold Rabs. destruct (Rcase_abs a); lra. Qed.

Lemma round2_error (x : R) : Rabs (round2 x - x) <= 1 / 200.
Proof.
  unfold round2. pose proof (rint_error (x * 100)) as H.
  apply Rabs_bound in H. apply Rabs_le. lra.
Qed.

Lemma rint_integer (z : Z) : rint (IZR z) = z.
Proof.
  unfold rint.
  assert (E : Int_part (IZR z) = z).
  { symmetry. apply Int_part_spec. lra. }
  rewrite E. destruct (Rlt_dec (IZR z - IZR z) (1 / 2)); [reflexivity | lra].
Qed.

Lemma rint_down (x : R) (z : Z) : IZR z <= x < IZR z + 1 / 2 -> rint x = z.
Proof.
  intros [Hlo Hhi]. unfold rint.
  assert (E : Int_part x = z) by (symmetry; apply Int_part_spec; lra).
  rewrite E. destruct (Rlt_dec (x - IZR z) (1 / 2)); [reflexivity | lra].
Qed.

(** An amount in whole cents is left unchanged. *)
Lemma round2_cents (x : R) (z : Z) : x * 100 = IZR z -> round2 x = x.
Proof.
  intros H. unfold round2. rewrite H, rint_integer, <- H. field.
Qed.


End Rounding.

(** * Running the builder on concrete loans *)

(** Unfolds the loop one period at a time; the side conditions are
    comparisons of concrete amounts. *)
Ltac run_schedule :=
  repeat (first
    [ rewrite schedule_loop_final by lra
    | rewrite schedule_loop_step by lra
    | rewrite schedule_loop_stop by lra
    | rewrite period_row_regular by lra ];
    simpl Ending_Balance).

Ltac same_rows := repeat (f_equal; try lra; try lia).

Section Examples.

(** Two payments of 60 on 100 at no interest: the second one is short. *)
Lemma example_short_final :
  schedule_data (__init__ 0 1 1) 100 60 0 2
  = [ {| Period := 1; Beginning_Balance := 100; Payment := 60;
         Principal_Paid := 60; Interest_Paid := 0; Ending_Balance := 40 |};
      {| Period := 2; Beginning_Balance := 40; Payment := 40;
         Principal_Paid := 40; Interest_Paid := 0; Ending_Balance := 0 |} ].
Proof.
  unfold schedule_data. simpl amortization_years.
  change (Z.to_nat (1 * 2 + 1)) with 3%nat.
  run_schedule. simpl. same_rows.
Qed.

(** A payment of 1 on 100 over one yearly period: both iterations are
    used up and 98 is still owed. *)
Lemma example_truncated :
  schedule_data (__init__ 0 1 1) 100 1 0 1
  = [ {| Period := 1; Beginning_Balance := 100; Payment := 1;
         Principal_Paid := 1; Interest_Paid := 0; Ending_Balance := 99 |};
      {| Period := 2; Beginning_Balance := 99; Payment := 1;
         Principal_Paid := 1; Interest_Paid := 0; Ending_Balance := 98 |} ].
Proof.
  unfold schedule_data. simpl amortization_years.
  change (Z.to_nat (1 * 1 + 1)) with 2%nat.
  run_schedule. simpl. same_rows.
Qed.

(** An interest-only payment: 10 a period on 1000 at 1 % never reduces
    the balance. *)
Lemma example_interest_only :
  schedule_data (__init__ 0 1 1) 1000 10 (1 / 100) 2
  = [ {| Period := 1; Beginning_Balance := 1000; Payment := 10;
         Principal_Paid := 0; Interest_Paid := 10; Ending_Balance := 1000 |};
      {| Period := 2; Beginning_Balance := 1000; Payment := 10;
         Principal_Paid := 0; Interest_Paid := 10; Ending_Balance := 1000 |};
      {| Period := 3; Beginning_Balance := 1000; Payment := 10;
         Principal_Paid := 0; Interest_Paid := 10; Ending_Balance := 1000 |} ].
Proof.
  unfold schedule_data. simpl amortization_years.
  change (Z.to_nat (1 * 2 + 1)) with 3%nat.
  run_schedule. simpl. same_rows.
Qed.

(** 100 repaid by payments of 50 at 0.1 % a period: a third, short row
    settles the interest. *)
Lemma example_with_interest :
  schedule_data (__init__ 0 1 1) 100 50 (1 / 1000) 2
  = [ {| Period := 1; Beginning_Balance := 100; Payment := 50;
         Principal_Paid := 499 / 10; Interest_Paid := 1 / 10;
         Ending_Balance := 501 / 10 |};
      {| Period := 2; Beginning_Balance := 501 / 10; Payment := 50;
         Principal_Paid := 499499 / 10000; Interest_Paid := 501 / 10000;
         Ending_Balance := 1501 / 10000 |};
      {| Period := 3; Beginning_Balance := 1501 / 10000;
         Payment := 1502501 / 10000000;
         Principal_Paid := 1501 / 10000; Interest_Paid := 1501 / 10000000;
         Ending_Balance := 0 |} ].
Proof.
  unfold schedule_data. simpl amortization_years.
  change (Z.to_nat (1 * 2 + 1)) with 3%nat.
  run_schedule. simpl. same_rows.
Qed.

(** In the table the builder returns, the amounts are rounded one by one,
    so the interest of a row is no longer its beginning balance times the
    rate: here 0.05 against 50.10 * 0.001. *)
Lemma example_rounded_interest :
  exists table r,
    build_amortization_schedule (__init__ 0 1 1) 100 50 (1 / 1000) 2 = Ok table
    /\ nth_error table 1 = Some r
    /\ Beginning_Balance r = 501 / 10
    /\ Interest_Paid r = 5 / 100
    /\ Interest_Paid r <> Beginning_Balance r * (1 / 1000).
Proof.
  unfold build_amortization_schedule. rewrite example_with_interest.
  eexists. eexists. split; [reflexivity|]. split; [reflexivity|].
  simpl.
  assert (E1 : round2 (501 / 10) = 501 / 10) by (apply (round2_cents _ 5010); lra).
  assert (E2 : round2 (501 / 10000) = 5 / 100).
  { unfold round2. rewrite (rint_down _ 5) by lra. lra. }
  rewrite E1, E2. repeat split; lra.
Qed.

End Examples.

(** * The ledger invariant *)

Section Ledger.

Variable self : MortgagePayment.
Variables principal pay rt : R.
Variable ppy : Z.

Let rows := schedule_data self principal pay rt ppy.
Let total_periods := (amortization_years self * ppy)%Z.


(** Otherwise the last row ends at zero or the loop has used every one of
    its [total_periods + 1] iterations. *)
Lemma schedule_end (r : Row) :
  last_row rows = Some r ->
  Ending_Balance r = 0
  \/ (0 < Ending_Balance r /\ length rows = Z.to_nat (total_periods + 1)).
Proof.
  intros Hlast. subst rows total_periods. unfold schedule_data in *.
  destruct (schedule_loop_end _ _ _ _ _ _ Hlast) as [Hz | (Hpos & _ & Hlen)];
    [now left | right; split; assumption].
Qed.

End Ledger.

(** * Results and exceptions of the solver *)

Section Totality.

Lemma bind_ok_inv {A B : Type} (c : result A) (k : A -> result B) (b : B) :
  bind c k = Ok b -> exists a, c = Ok a /\ k a = Ok b.
Proof. destruct c as [a | e]; simpl; [eauto | discriminate]. Qed.

Lemma Ok_inj {A : Type} (a b : A) : Ok a = Ok b -> a = b.
Proof. congruence. Qed.


Variable self : MortgagePayment.







(** The six quotes in terms of the four solved payments. *)
Lemma payments_inv (principal : R) (t : R * R * R * R * R * R) :
  payments self principal = Ok t ->
  exists monthly semi_monthly bi_weekly weekly,
    calculate_payment self principal (monthly_rate self) 12 = Ok monthly /\
    calculate_payment self principal (semi_monthly_rate self) 24 = Ok semi_monthly /\
    calculate_payment self principal (bi_weekly_rate self) 26 = Ok bi_weekly /\
    calculate_payment self principal (weekly_rate self) 52 = Ok weekly /\
    t = (monthly, semi_monthly, bi_weekly, monthly / 2, weekly, monthly / 4).
Proof.
  unfold payments. intros H.
  apply bind_ok_inv in H. destruct H as (v1 & E1 & H).
  apply bind_ok_inv in H. destruct H as (v2 & E2 & H).
  apply bind_ok_inv in H. destruct H as (v3 & E3 & H).
  apply bind_ok_inv in H. destruct H as (v4 & E4 & H).
  injection H as <-. exists v1, v2, v3, v4. repeat split; assumption.
Qed.

(** The builder fails only on an empty [data]. *)
Lemma build_amortization_schedule_ok (principal pay rt : R) (ppy : Z) :
  schedule_data self principal pay rt ppy <> [] ->
  build_amortization_schedule self principal pay rt ppy
  = Ok (map round_row (schedule_data self principal pay rt ppy)).
Proof.
  intros H. unfold build_amortization_schedule.
  destruct (schedule_data self principal pay rt ppy); [congruence | reflexivity].
Qed.

Lemma schedule_data_nonempty (principal pay rt : R) (ppy : Z) :
  0 < principal -> (0 <= amortization_years self * ppy)%Z ->
  schedule_data self principal pay rt ppy <> [].
Proof.
  intros HP Hn. unfold schedule_data.
  replace (Z.to_nat (amortization_years self * ppy + 1))
    with (S (Z.to_nat (amortization_years self * ppy))) by lia.
  now apply schedule_loop_nonempty.
Qed.

End Totality.




(** * The six schemes *)

Section Orchestrator.

Variable self : MortgagePayment.
Variable principal : R.

Lemma generate_payment_schedule_inv (schedules : list (string * list Row)) :
  generate_payment_schedule self principal = Ok schedules ->
  exists monthly semi bw abw w aw d1 d2 d3 d4 d5 d6,
    payments self principal = Ok (monthly, semi, bw, abw, w, aw) /\
    build_amortization_schedule self principal monthly (monthly_rate self) 12
    = Ok d1 /\
    build_amortization_schedule self principal semi (semi_monthly_rate self) 24
    = Ok d2 /\
    build_amortization_schedule self principal bw (bi_weekly_rate self) 26
    = Ok d3 /\
    build_amortization_schedule self principal (monthly / 2) (bi_weekly_rate self) 26
    = Ok d4 /\
    build_amortization_schedule self principal w (weekly_rate self) 52
    = Ok d5 /\
    build_amortization_schedule self principal (monthly / 4) (weekly_rate self) 52
    = Ok d6 /\
    schedules = [ ("Monthly"%string, d1); ("Semi-Monthly"%string, d2);
                  ("Bi-Weekly"%string, d3); ("Accelerated Bi-Weekly"%string, d4);
                  ("Weekly"%string, d5); ("Accelerated Weekly"%string, d6) ].
Proof.
  unfold generate_payment_schedule. intros H.
  apply bind_ok_inv in H. destruct H as (t & Et & H).
  destruct t as [[[[[monthly semi] bw] abw] w] aw].
  unfold schemes in H. cbn [mapM payment rate periods_per_year name] in H.
  apply bind_ok_inv in H. destruct H as (p1 & H1 & H).
  apply bind_ok_inv in H1. destruct H1 as (d1 & B1 & [= <-]).
  apply bind_ok_inv in H. destruct H as (l1 & H & [= <-]).
  apply bind_ok_inv in H. destruct H as (p2 & H2 & H).
  apply bind_ok_inv in H2. destruct H2 as (d2 & B2 & [= <-]).
  apply bind_ok_inv in H. destruct H as (l2 & H & [= <-]).
  apply bind_ok_inv in H. destruct H as (p3 & H3 & H).
  apply bind_ok_inv in H3. destruct H3 as (d3 & B3 & [= <-]).
  apply bind_ok_inv in H. destruct H as (l3 & H & [= <-]).
  apply bind_ok_inv in H. destruct H as (p4 & H4 & H).
  apply bind_ok_inv in H4. destruct H4 as (d4 & B4 & [= <-]).
  apply bind_ok_inv in H. destruct H as (l4 & H & [= <-]).
  apply bind_ok_inv in H. destruct H as (p5 & H5 & H).
  apply bind_ok_inv in H5. destruct H5 as (d5 & B5 & [= <-]).
  apply bind_ok_inv in H. destruct H as (l5 & H & [= <-]).
  apply bind_ok_inv in H. destruct H as (p6 & H6 & H).
  apply bind_ok_inv in H6. destruct H6 as (d6 & B6 & [= <-]).
  apply bind_ok_inv in H. destruct H as (l6 & [= <-] & [= <-]).
  exists monthly, semi, bw, abw, w, aw, d1, d2, d3, d4, d5, d6.
  repeat split; assumption.
Qed.

(** With a positive principal and a non-negative number of years every
    scheme gets a schedule. *)
Lemma generate_payment_schedule_total (t : R * R * R * R * R * R) :
  0 < principal -> (0 <= amortization_years self)%Z ->
  payments self principal = Ok t ->
  exists schedules, generate_payment_schedule self principal = Ok schedules.
Proof.
  intros HP Hy Et. unfold generate_payment_schedule. rewrite Et.
  destruct t as [[[[[monthly semi] bw] abw] w] aw].
  unfold schemes. cbn [bind mapM payment rate periods_per_year name].
  rewrite !build_amortization_schedule_ok
    by (apply schedule_data_nonempty; [assumption | lia]).
  cbn [bind]. eauto.
Qed.

End Orchestrator.

(** * Accelerated payments against the solved ones *)

Section Accelerated.

(** The three rates as powers of one root [z = (1 + q/2)^(1/78)]. *)
Lemma monthly_rate_root (q : R) :
  -2 < q -> 1 + _period_rate q 12 = Rpower (1 + q / 2) (1 / 78) ^ 13.
Proof.
  intros Hq. unfold _period_rate.
  rewrite <- Rpower_pow by apply exp_pos. rewrite Rpower_mult.
  replace (1 / 78 * INR 13) with (2 / 12) by (simpl; lra). lra.
Qed.

Lemma bi_weekly_rate_root (q : R) :
  -2 < q -> 1 + _period_rate q 26 = Rpower (1 + q / 2) (1 / 78) ^ 6.
Proof.
  intros Hq. unfold _period_rate.
  rewrite <- Rpower_pow by apply exp_pos. rewrite Rpower_mult.
  replace (1 / 78 * INR 6) with (2 / 26) by (simpl; lra). lra.
Qed.

Lemma weekly_rate_root (q : R) :
  -2 < q -> 1 + _period_rate q 52 = Rpower (1 + q / 2) (1 / 78) ^ 3.
Proof.
  intros Hq. unfold _period_rate.
  rewrite <- Rpower_pow by apply exp_pos. rewrite Rpower_mult.
  replace (1 / 78 * INR 3) with (2 / 52) by (simpl; lra). lra.
Qed.

Lemma half_of_thirteenth_power (z : R) : 1 < z -> 2 * (z ^ 6 - 1) < z ^ 13 - 1.
Proof.
  intros Hz.
  assert (Ha : 1 < z ^ 6) by (apply Rlt_pow_R1; [assumption | lia]).
  replace (z ^ 13) with (z ^ 6 * z ^ 6 * z) by ring.
  set (a := z ^ 6) in *.
  assert (H1 : a * a * 1 < a * a * z) by (apply Rmult_lt_compat_l; nra).
  assert (H2 : 0 <= (a - 1) * (a - 1)) by nra.
  nra.
Qed.

Lemma quarter_of_thirteenth_power (z : R) : 1 < z -> 4 * (z ^ 3 - 1) < z ^ 13 - 1.
Proof.
  intros Hz.
  assert (Hu : 1 < z ^ 3) by (apply Rlt_pow_R1; [assumption | lia]).
  replace (z ^ 13) with (z ^ 3 * z ^ 3 * (z ^ 3 * z ^ 3) * z) by ring.
  set (u := z ^ 3) in *.
  assert (Hu2 : 1 < u * u) by nra.
  assert (H1 : u * u * (u * u) * 1 < u * u * (u * u) * z).
  { apply Rmult_lt_compat_l; [nra | assumption]. }
  assert (H2 : 0 <= (u - 1) * (u - 1) * (u * u + 2 * u + 3)).
  { apply Rmult_le_pos; nra. }
  nra.
Qed.

Lemma accelerated_rates (q : R) :
  0 < q ->
  _period_rate q 26 < _period_rate q 12 / 2 /\
  _period_rate q 52 < _period_rate q 12 / 4.
Proof.
  intros Hq.
  assert (Hz : Rpower (1 + q / 2) 0 < Rpower (1 + q / 2) (1 / 78))
    by (apply Rpower_lt; lra).
  rewrite Rpower_O in Hz by lra.
  pose proof (monthly_rate_root q ltac:(lra)) as Hm.
  pose proof (bi_weekly_rate_root q ltac:(lra)) as Hb.
  pose proof (weekly_rate_root q ltac:(lra)) as Hw.
  pose proof (half_of_thirteenth_power _ Hz).
  pose proof (quarter_of_thirteenth_power _ Hz).
  split; lra.
Qed.

Variable self : MortgagePayment.

(** At a positive quoted rate the solved payment for [p] periods a year is
    the periodic rate times a factor that does not depend on [p]. *)
Lemma solved_payment_factor (q principal : R) (p : Z) :
  0 < q -> (0 < amortization_years self)%Z -> (0 < p)%Z ->
  calculate_payment self principal (_period_rate q p) p
  = Ok (principal * _period_rate q p
        / (1 - / ((1 + q / 2) ^ 2) ^ Z.to_nat (amortization_years self)))
  /\ 0 < 1 - / ((1 + q / 2) ^ 2) ^ Z.to_nat (amortization_years self).
Proof.
  intros Hq Hy Hp.
  pose proof (period_rate_pos q p Hq Hp) as Hr.
  rewrite calculate_payment_nonzero_rate by (lra || lia).
  rewrite powerRZ_neg', powerRZ_to_nat by lia.
  rewrite Z2Nat.inj_mul, Nat.mul_comm, pow_mult by lia.
  rewrite period_rate_full_year by (lra || lia).
  split; [reflexivity|].
  assert (H : 1 < ((1 + q / 2) ^ 2) ^ Z.to_nat (amortization_years self)).
  { apply Rlt_pow_R1; [nra | lia]. }
  assert (/ ((1 + q / 2) ^ 2) ^ Z.to_nat (amortization_years self) < / 1).
  { apply Rinv_lt_contravar; lra. }
  rewrite Rinv_1 in *. lra.
Qed.

End Accelerated.

(** The accelerated quotes are strictly above the payments solved for the
    bi-weekly and weekly rates. *)
Lemma accelerated_exceed_solved (quoted : R) (years term : Z) (principal : R)
  (monthly semi bw abw w aw : R) :
  0 <= quoted -> (0 < years)%Z -> 0 < principal ->
  payments (__init__ quoted years term) principal
  = Ok (monthly, semi, bw, abw, w, aw) ->
  bw < abw /\ w < aw.
Proof.
  intros Hq Hy HP Hpay.
  apply payments_inv in Hpay.
  destruct Hpay as (m' & s' & b' & w' & Em & _ & Eb & Ew & [= -> -> -> -> -> ->]).
  simpl in Em, Eb, Ew.
  set (self := __init__ quoted years term) in *.
  destruct Hq as [Hq | <-].
  - assert (Hq' : 0 < quoted / 100) by lra.
    destruct (solved_payment_factor self (quoted / 100) principal 12 Hq' Hy)
      as [Fm HD]; [lia|].
    destruct (solved_payment_factor self (quoted / 100) principal 26 Hq' Hy)
      as [Fb _]; [lia|].
    destruct (solved_payment_factor self (quoted / 100) principal 52 Hq' Hy)
      as [Fw _]; [lia|].
    rewrite Fm in Em. rewrite Fb in Eb. rewrite Fw in Ew.
    apply Ok_inj in Em, Eb, Ew. subst m' b' w'.
    destruct (accelerated_rates (quoted / 100) Hq') as [Hb Hw].
    set (D := 1 - / ((1 + quoted / 100 / 2) ^ 2) ^ Z.to_nat (amortization_years self)) in *.
    assert (HDi : 0 < / D) by now apply Rinv_0_lt_compat.
    assert (HPD : 0 < principal * / D) by now apply Rmult_lt_0_compat.
    pose proof (Rmult_lt_compat_l _ _ _ HPD Hb) as Hb'.
    pose proof (Rmult_lt_compat_l _ _ _ HPD Hw) as Hw'.
    unfold Rdiv in *. split; lra.
  - replace (0 / 100) with 0 in * by lra.
    rewrite period_rate_zero in Em, Eb, Ew.
    rewrite calculate_payment_zero_rate in Em, Eb, Ew by (simpl; lia).
    apply Ok_inj in Em, Eb, Ew. subst m' b' w'.
    simpl amortization_years. rewrite !mult_IZR.
    assert (HY : 0 < IZR years) by now apply IZR_lt.
    assert (HYi : 0 < / IZR years) by now apply Rinv_0_lt_compat.
    assert (HPY : 0 < principal * / IZR years) by now apply Rmult_lt_0_compat.
    split.
    + replace (principal / (IZR years * 26)) with (principal * / IZR years / 26)
        by (field; lra).
      replace (principal / (IZR years * 12) / 2) with (principal * / IZR years / 24)
        by (field; lra).
      lra.
    + replace (principal / (IZR years * 52)) with (principal * / IZR years / 52)
        by (field; lra).
      replace (principal / (IZR years * 12) / 4) with (principal * / IZR years / 48)
        by (field; lra).
      lra.
Qed.


(** The quotes on 100 over one year at no interest. *)
Lemma payments_interest_free :
  payments (__init__ 0 1 1) 100
  = Ok (100 / 12, 100 / 24, 100 / 26, 100 / 12 / 2, 100 / 52, 100 / 12 / 4).
Proof.
  unfold payments, __init__. simpl monthly_rate. simpl semi_monthly_rate.
  simpl bi_weekly_rate. simpl weekly_rate.
  replace (0 / 100) with 0 by lra. rewrite !period_rate_zero.
  rewrite !calculate_payment_zero_rate by (simpl; lia). reflexivity.
Qed.

(** * The ledger of a schedule *)




(** C2.  When the current balance plus the period's interest is strictly
    below the level payment, the loop appends exactly one row, whose payment
    is the balance plus the interest (less than the level payment), whose
    principal paid is the whole balance and whose ending balance is 0, and
    then nothing more; in a schedule such a row is the last one, and so is
    any row whose payment is below the level payment. *)
Theorem short_final_row (self : MortgagePayment) (principal pay rt : R) (ppy : Z) :
  let rows := schedule_data self principal pay rt ppy in
  (forall k period c, 0 < c -> c + c * rt < pay ->
     schedule_loop pay rt (S k) period c
     = [ {| Period := period; Beginning_Balance := c; Payment := c + c * rt;
            Principal_Paid := c; Interest_Paid := c * rt;
            Ending_Balance := 0 |} ]) /\
  (forall i r, nth_error rows i = Some r ->
     Beginning_Balance r + Interest_Paid r < pay ->
     Payment r = Beginning_Balance r + Interest_Paid r /\
     Payment r < pay /\
     Principal_Paid r = Beginning_Balance r /\
     Ending_Balance r = 0 /\
     length rows = S i) /\
  (forall i r, nth_error rows i = Some r -> Payment r < pay ->
     length rows = S i).
Proof.
  intros rows. subst rows. unfold schedule_data. split; [|split].
  - intros k period c. apply schedule_loop_final.
  - intros i r H Hlt.
    destruct (schedule_loop_short_row _ _ _ _ _ _ _ H Hlt) as (Hlen & Hp & Hpp & He).
    repeat split; try assumption. lra.
  - intros i r H Hlt.
    pose proof (nth_error_In _ _ H) as Hin.
    apply schedule_loop_rows in Hin. destruct Hin as (_ & _ & _ & [Hp | Hp]); [lra|].
    assert (Hlt' : Beginning_Balance r + Interest_Paid r < pay) by lra.
    now destruct (schedule_loop_short_row _ _ _ _ _ _ _ H Hlt').
Qed.

(** The second payment on 100 repaid by payments of 60 is the short one. *)
Lemma short_final_row_witness :
  let r := {| Period := 2; Beginning_Balance := 40; Payment := 40;
              Principal_Paid := 40; Interest_Paid := 0; Ending_Balance := 0 |} in
  Payment r = Beginning_Balance r + Interest_Paid r /\
  Payment r < 60 /\
  Principal_Paid r = Beginning_Balance r /\
  Ending_Balance r = 0 /\
  length (schedule_data (__init__ 0 1 1) 100 60 0 2) = 2%nat.
Proof.
  intros r.
  destruct (short_final_row (__init__ 0 1 1) 100 60 0 2) as (_ & H & _).
  apply (H 1%nat r).
  - rewrite example_short_final. reflexivity.
  - simpl. lra.
Defined.

(** * Level payment and periodic rate *)



(** C4.  For a nominal rate [r >= 0] and [p > 0] periods a year the rate
    converter returns [(1 + r/2)^(2/p) - 1]; at [r = 0] this is exactly 0;
    and it is not the simple quotient [r / p]: for [r > 0] the two differ
    for every [p] other than 2 (at [p = 2] both are [r/2]), the converted
    rate being the smaller one from [p = 3] on.  The value is the one rate
    above -1 whose [p]-fold compounding is [(1 + r/2)^2]. *)
Theorem period_rate_formula (r : R) (p : Z) :
  0 <= r -> (0 < p)%Z ->
  _period_rate r p = Rpower (1 + r / 2) (2 / IZR p) - 1 /\
  (1 + _period_rate r p) ^ Z.to_nat p = (1 + r / 2) ^ 2 /\
  (forall x, -1 < x -> (1 + x) ^ Z.to_nat p = (1 + r / 2) ^ 2 ->
             x = _period_rate r p) /\
  (r = 0 -> _period_rate r p = 0) /\
  (0 < r -> p <> 2%Z -> _period_rate r p <> r / IZR p) /\
  (0 < r -> (3 <= p)%Z -> _period_rate r p < r / IZR p).
Proof.
  intros Hr Hp. split; [reflexivity|].
  split; [apply period_rate_full_year; lra || lia|].
  split; [intros x; apply period_rate_unique; lra || lia|].
  split; [|split].
  - intros ->. apply period_rate_zero.
  - intros Hr' Hp2.
    destruct (Z.eq_dec p 1) as [-> | Hp1].
    + rewrite period_rate_annual by lra.
      assert (0 < r * r) by nra. lra.
    + assert (Hp3 : (3 <= p)%Z) by lia.
      pose proof (period_rate_lt_simple r p Hr' Hp3). lra.
  - apply period_rate_lt_simple.
Qed.

(** The monthly rate for a quoted 5.5 %. *)
Lemma period_rate_formula_witness :
  _period_rate (55 / 1000) 12 = Rpower (1 + 55 / 1000 / 2) (2 / 12) - 1
  /\ _period_rate (55 / 1000) 12 <> 55 / 1000 / 12.
Proof.
  destruct (period_rate_formula (55 / 1000) 12) as (Hf & _ & _ & _ & Hne & _).
  - lra.
  - lia.
  - split; [exact Hf|]. apply Hne; [lra | lia].
Defined.

(** * Inputs outside the intended range *)




(** C6 (as amended).  When a positive balance is left after the last of the
    [amortization_years * periods_per_year + 1] iterations, the builder
    raises nothing: it returns the rows built so far, rounded, one for each
    iteration. *)
Theorem unfinished_schedule_is_returned (self : MortgagePayment)
  (principal pay rt : R) (ppy : Z) (r : Row) :
  last_row (schedule_data self principal pay rt ppy) = Some r ->
  0 < Ending_Balance r ->
  build_amortization_schedule self principal pay rt ppy
  = Ok (map round_row (schedule_data self principal pay rt ppy))
  /\ length (schedule_data self principal pay rt ppy)
     = Z.to_nat (amortization_years self * ppy + 1).
Proof.
  intros Hlast Hpos. split.
  - apply build_amortization_schedule_ok. intros E. rewrite E in Hlast. discriminate.
  - destruct (schedule_end self principal pay rt ppy r Hlast) as [Hz | [_ Hlen]];
      [lra | exact Hlen].
Qed.

(** The payment of 1 on a principal of 100: two rows come back. *)
Lemma unfinished_schedule_is_returned_witness :
  build_amortization_schedule (__init__ 0 1 1) 100 1 0 1
  = Ok (map round_row (schedule_data (__init__ 0 1 1) 100 1 0 1))
  /\ length (schedule_data (__init__ 0 1 1) 100 1 0 1) = 2%nat.
Proof.
  apply (unfinished_schedule_is_returned (__init__ 0 1 1) 100 1 0 1
           {| Period := 2; Beginning_Balance := 99; Payment := 1;
              Principal_Paid := 1; Interest_Paid := 0; Ending_Balance := 98 |}).
  - rewrite example_truncated. reflexivity.
  - simpl. lra.
Defined.

(** C6 (as stated) fails: the interest-only payment of 10 on 1000 at 1 % a
    period leaves the balance at 1000 after all three iterations, and the
    builder returns the three rows instead of raising. *)
Lemma unfinished_schedule_counterexample :
  build_amortization_schedule (__init__ 0 1 1) 1000 10 (1 / 100) 2
  = Ok [ {| Period := 1; Beginning_Balance := 1000; Payment := 10;
            Principal_Paid := 0; Interest_Paid := 10; Ending_Balance := 1000 |};
         {| Period := 2; Beginning_Balance := 1000; Payment := 10;
            Principal_Paid := 0; Interest_Paid := 10; Ending_Balance := 1000 |};
         {| Period := 3; Beginning_Balance := 1000; Payment := 10;
            Principal_Paid := 0; Interest_Paid := 10; Ending_Balance := 1000 |} ]
  /\ (exists r, last_row (schedule_data (__init__ 0 1 1) 1000 10 (1 / 100) 2) = Some r
                /\ 0 < Ending_Balance r).
Proof.
  split.
  2:{ rewrite example_interest_only. eexists. split; [reflexivity | simpl; lra]. }
  unfold build_amortization_schedule.
  rewrite example_interest_only. unfold round_row. simpl.
  rewrite (round2_cents 1000 100000) by lra.
  rewrite (round2_cents 10 1000) by lra.
  rewrite (round2_cents 0 0) by lra.
  reflexivity.
Qed.

(** * Accelerated schemes and repaid principal *)

(** C7.  In the quotes of [payments] the accelerated bi-weekly payment is
    the monthly payment divided by 2 and the accelerated weekly payment is
    the monthly payment divided by 4, the monthly payment being the one the
    solver returns for the monthly rate and 12 periods; and the schedules
    that [generate_payment_schedule] builds for the two accelerated schemes
    are those of the builder for these payments with the bi-weekly rate and
    26 periods a year, and with the weekly rate and 52 periods a year.  The
    accelerated quotes are not the payments solved with the bi-weekly and
    weekly rates: for a positive principal, a quoted rate [>= 0] and
    positive years they are strictly larger. *)
Theorem accelerated_payments (self : MortgagePayment) (principal : R) :
  (forall t, payments self principal = Ok t ->
     exists monthly semi bw w,
       calculate_payment self principal (monthly_rate self) 12 = Ok monthly /\
       calculate_payment self principal (bi_weekly_rate self) 26 = Ok bw /\
       calculate_payment self principal (weekly_rate self) 52 = Ok w /\
       t = (monthly, semi, bw, monthly / 2, w, monthly / 4)) /\
  (forall schedules,
     generate_payment_schedule self principal = Ok schedules ->
     exists monthly d1 d2 d3 d4 d5 d6,
       calculate_payment self principal (monthly_rate self) 12 = Ok monthly /\
       schedules = [ ("Monthly"%string, d1); ("Semi-Monthly"%string, d2);
                     ("Bi-Weekly"%string, d3);
                     ("Accelerated Bi-Weekly"%string, d4);
                     ("Weekly"%string, d5); ("Accelerated Weekly"%string, d6) ] /\
       build_amortization_schedule self principal (monthly / 2)
         (bi_weekly_rate self) 26 = Ok d4 /\
       build_amortization_schedule self principal (monthly / 4)
         (weekly_rate self) 52 = Ok d6) /\
  (forall quoted years term monthly semi bw abw w aw,
     0 <= quoted -> (0 < years)%Z -> 0 < principal ->
     payments (__init__ quoted years term) principal
     = Ok (monthly, semi, bw, abw, w, aw) ->
     bw < abw /\ w < aw).
Proof.
  split; [|split].
  - intros t Et.
    destruct (payments_inv self principal t Et)
      as (monthly & semi & bw & w & E1 & _ & E3 & E4 & ->).
    exists monthly, semi, bw, w. repeat split; assumption.
  - intros schedules Hgen.
    destruct (generate_payment_schedule_inv self principal schedules Hgen)
      as (monthly & semi & bw & abw & w & aw & d1 & d2 & d3 & d4 & d5 & d6
          & Et & _ & _ & _ & B4 & _ & B6 & ->).
    destruct (payments_inv self principal _ Et)
      as (monthly' & _ & _ & _ & E1 & _ & _ & _ & [= -> _ _ _ _ _]).
    exists monthly', d1, d2, d3, d4, d5, d6. repeat split; assumption.
  - intros quoted years term monthly semi bw abw w aw.
    apply accelerated_exceed_solved.
Qed.

(** The quotes and the schedules for 100 over one year at no interest. *)
Lemma accelerated_payments_witness :
  (exists monthly semi bw w,
     payments (__init__ 0 1 1) 100
     = Ok (monthly, semi, bw, monthly / 2, w, monthly / 4))
  /\ (100 / 26 < 100 / 12 / 2 /\ 100 / 52 < 100 / 12 / 4)
  /\ (exists schedules monthly d4 d6,
        generate_payment_schedule (__init__ 0 1 1) 100 = Ok schedules /\
        build_amortization_schedule (__init__ 0 1 1) 100 (monthly / 2)
          (bi_weekly_rate (__init__ 0 1 1)) 26 = Ok d4 /\
        build_amortization_schedule (__init__ 0 1 1) 100 (monthly / 4)
          (weekly_rate (__init__ 0 1 1)) 52 = Ok d6).
Proof.
  destruct (accelerated_payments (__init__ 0 1 1) 100) as (Hpay & Hgen & Hacc).
  split; [|split].
  - destruct (Hpay _ payments_interest_free) as (monthly & semi & bw & w & _ & _ & _ & E).
    exists monthly, semi, bw, w. rewrite <- E. exact payments_interest_free.
  - apply (Hacc 0 1%Z 1%Z _ _ _ _ _ _ ltac:(lra) ltac:(lia) ltac:(lra)
             payments_interest_free).
  - destruct (generate_payment_schedule_total (__init__ 0 1 1) 100 _
                ltac:(lra) ltac:(simpl; lia) payments_interest_free)
      as [schedules Hs].
    destruct (Hgen schedules Hs)
      as (monthly & d1 & d2 & d3 & d4 & d5 & d6 & _ & _ & B4 & B6).
    exists schedules, monthly, d4, d6. repeat split; assumption.
Defined.



(** * Semi-annual equivalence and the exact payoff *)

(** C9.  Compounded over half a year, that is over [p/2] periods, the
    periodic rate gives back the semi-annual rate [r/2]; six monthly
    periods and twenty-six weekly periods both do. *)
Theorem period_rate_semiannual_equivalence (r : R) (p : Z) :
  0 <= r -> (0 < p)%Z ->
  Rpower (1 + _period_rate r p) (IZR p / 2) = 1 + r / 2 /\
  (1 + _period_rate r 12) ^ 6 = 1 + r / 2 /\
  (1 + _period_rate r 52) ^ 26 = 1 + r / 2 /\
  (1 + _period_rate r 12) ^ 6 = (1 + _period_rate r 52) ^ 26.
Proof.
  intros Hr Hp.
  assert (H12 : (1 + _period_rate r 12) ^ 6 = 1 + r / 2).
  { rewrite <- Rpower_pow by (pose proof (period_rate_nonneg r 12 Hr ltac:(lia)); lra).
    replace (INR 6) with (12 / 2) by (simpl; lra).
    apply period_rate_half_year; [lra | lia]. }
  assert (H52 : (1 + _period_rate r 52) ^ 26 = 1 + r / 2).
  { rewrite <- Rpower_pow by (pose proof (period_rate_nonneg r 52 Hr ltac:(lia)); lra).
    replace (INR 26) with (52 / 2) by (simpl; lra).
    apply period_rate_half_year; [lra | lia]. }
  repeat split.
  - apply period_rate_half_year; [lra | lia].
  - exact H12.
  - exact H52.
  - now rewrite H12, H52.
Qed.

(** A quoted 5.5 %, monthly. *)
Lemma period_rate_semiannual_equivalence_witness :
  Rpower (1 + _period_rate (55 / 1000) 12) (12 / 2) = 1 + 55 / 1000 / 2.
Proof.
  destruct (period_rate_semiannual_equivalence (55 / 1000) 12) as (H & _).
  - lra.
  - lia.
  - exact H.
Defined.






(** * Further properties of the schedule builder *)

Section BuilderShape.

Variable self : MortgagePayment.
Variables principal pay rt : R.
Variable ppy : Z.

Lemma nth_error_round_row (rows : list Row) (i : nat) (r : Row) :
  nth_error (map round_row rows) i = Some r ->
  exists r0, nth_error rows i = Some r0 /\ r = round_row r0.
Proof.
  rewrite nth_error_map. destruct (nth_error rows i) as [r0|]; simpl.
  - intros [= <-]. now exists r0.
  - discriminate.
Qed.

Lemma build_amortization_schedule_inv (table : list Row) :
  build_amortization_schedule self principal pay rt ppy = Ok table ->
  table = map round_row (schedule_data self principal pay rt ppy)
  /\ schedule_data self principal pay rt ppy <> [].
Proof.
  unfold build_amortization_schedule.
  destruct (schedule_data self principal pay rt ppy) as [|a l]; [discriminate|].
  intros [= <-]. split; [reflexivity | discriminate].
Qed.

Lemma schedule_data_empty_iff :
  schedule_data self principal pay rt ppy = []
  <-> principal <= 0 \/ (amortization_years self * ppy < 0)%Z.
Proof.
  unfold schedule_data. split.
  - intros E.
    destruct (Rle_dec principal 0) as [Hle | Hgt]; [now left|]. right.
    destruct (Z_lt_le_dec (amortization_years self * ppy) 0) as [Hn | Hn];
      [assumption|]. exfalso.
    replace (Z.to_nat (amortization_years self * ppy + 1))
      with (S (Z.to_nat (amortization_years self * ppy))) in E by lia.
    apply Rnot_le_lt in Hgt.
    exact (schedule_loop_nonempty pay rt _ 1 principal Hgt E).
  - intros [Hle | Hn].
    + now apply schedule_loop_stop.
    + replace (Z.to_nat (amortization_years self * ppy + 1)) with 0%nat by lia.
      reflexivity.
Qed.

End BuilderShape.

(** X1.  The rows of a schedule are numbered 1, 2, 3, ... without a gap,
    there are never more than [amortization_years * periods_per_year + 1]
    of them, and the table the builder returns has the same number of rows
    with the same numbers. *)
Theorem schedule_rows_are_numbered (self : MortgagePayment)
  (principal pay rt : R) (ppy : Z) :
  (forall i r, nth_error (schedule_data self principal pay rt ppy) i = Some r ->
     Period r = (Z.of_nat i + 1)%Z) /\
  (length (schedule_data self principal pay rt ppy)
   <= Z.to_nat (amortization_years self * ppy + 1))%nat /\
  (forall table,
     build_amortization_schedule self principal pay rt ppy = Ok table ->
     length table = length (schedule_data self principal pay rt ppy) /\
     forall i r, nth_error table i = Some r -> Period r = (Z.of_nat i + 1)%Z).
Proof.
  split; [|split].
  - intros i r H. unfold schedule_data in H.
    apply schedule_loop_period in H. lia.
  - apply schedule_loop_length.
  - intros table Hb.
    apply build_amortization_schedule_inv in Hb. destruct Hb as [-> _].
    split; [apply length_map|].
    intros i r H. apply nth_error_round_row in H.
    destruct H as (r0 & H0 & ->). simpl.
    unfold schedule_data in H0. apply schedule_loop_period in H0. lia.
Qed.

(** The two rows of the loan of 100 repaid by payments of 60. *)
Lemma schedule_rows_are_numbered_witness :
  Period {| Period := 2; Beginning_Balance := 40; Payment := 40;
            Principal_Paid := 40; Interest_Paid := 0; Ending_Balance := 0 |}
  = (Z.of_nat 1 + 1)%Z.
Proof.
  destruct (schedule_rows_are_numbered (__init__ 0 1 1) 100 60 0 2) as (H & _).
  apply (H 1%nat). rewrite example_short_final. reflexivity.
Defined.

(** X2.  The builder raises exactly when the loop appends no row, that is
    when the principal is not positive or the number of periods is
    negative, and what it raises then is [KeyError]; in every other case it
    returns the rounded rows, at least one. *)
Theorem build_raises_iff (self : MortgagePayment)
  (principal pay rt : R) (ppy : Z) :
  (build_amortization_schedule self principal pay rt ppy = Raise KeyError
   <-> principal <= 0 \/ (amortization_years self * ppy < 0)%Z) /\
  (forall e, build_amortization_schedule self principal pay rt ppy = Raise e ->
             e = KeyError) /\
  (0 < principal -> (0 <= amortization_years self * ppy)%Z ->
   build_amortization_schedule self principal pay rt ppy
   = Ok (map round_row (schedule_data self principal pay rt ppy))
   /\ schedule_data self principal pay rt ppy <> []).
Proof.
  pose proof (schedule_data_empty_iff self principal pay rt ppy) as Hiff.
  unfold build_amortization_schedule.
  destruct (schedule_data self principal pay rt ppy) as [|a l] eqn:E.
  - split; [|split].
    + split; [intros _; now apply Hiff | reflexivity].
    + intros e [= <-]. reflexivity.
    + intros HP Hn. exfalso.
      destruct (proj1 Hiff eq_refl) as [H | H]; [lra | lia].
  - split; [|split].
    + split; [discriminate|]. intros H. apply Hiff in H. discriminate.
    + intros e. discriminate.
    + intros _ _. split; [reflexivity | discriminate].
Qed.

(** A principal of zero, and a loan of 100. *)
Lemma build_raises_iff_witness :
  build_amortization_schedule (__init__ 0 1 1) 0 60 0 2 = Raise KeyError
  /\ build_amortization_schedule (__init__ 0 1 1) 100 60 0 2
     = Ok (map round_row (schedule_data (__init__ 0 1 1) 100 60 0 2)).
Proof.
  destruct (build_raises_iff (__init__ 0 1 1) 0 60 0 2) as ([_ H0] & _ & _).
  destruct (build_raises_iff (__init__ 0 1 1) 100 60 0 2) as (_ & _ & H1).
  split.
  - apply H0. left. lra.
  - apply H1; [lra | simpl; lia].
Defined.

Section BuilderAccounts.

Variables pay rt : R.

Lemma schedule_loop_row_accounts (iters : nat) (period : Z) (c : R) (r : Row) :
  In r (schedule_loop pay rt iters period c) ->
  0 < Beginning_Balance r /\
  Payment r = Principal_Paid r + Interest_Paid r /\
  Payment r <= pay /\
  Principal_Paid r <= Beginning_Balance r.
Proof.
  revert period c. induction iters as [|k IH]; intros period c; [contradiction|].
  destruct (schedule_loop_cases pay rt (S k) period c) as [E | (k' & Ek & Hc & E)];
    rewrite E; [contradiction|].
  injection Ek as <-. intros [<- | Hin]; [|now apply IH in Hin].
  destruct (period_row_cases pay rt period c) as [[H Er] | [H Er]];
    rewrite Er; simpl; repeat split; lra.
Qed.

Lemma column_sum_split (f g h : Row -> R) (rows : list Row) :
  (forall r, In r rows -> f r = g r + h r) ->
  column_sum f rows = column_sum g rows + column_sum h rows.
Proof.
  induction rows as [|a rows IH]; intros H.
  - unfold column_sum. simpl. lra.
  - rewrite !column_sum_cons, (H a) by (left; reflexivity).
    rewrite IH by (intros r Hr; apply H; right; exact Hr). lra.
Qed.



(** A payment that does not exceed the interest on the current balance
    never reduces it, and the loop runs through all its iterations. *)
Lemma schedule_loop_no_progress (iters : nat) (period : Z) (c : R) :
  0 <= rt -> 0 < c -> pay <= c * rt ->
  length (schedule_loop pay rt iters period c) = iters /\
  forall r, In r (schedule_loop pay rt iters period c) ->
    c <= Beginning_Balance r /\ Beginning_Balance r <= Ending_Balance r /\
    Payment r = pay /\ Principal_Paid r <= 0.
Proof.
  intros Hrt. revert period c.
  induction iters as [|k IH]; intros period c Hc Hpay.
  - split; [reflexivity | contradiction].
  - rewrite schedule_loop_step by assumption.
    rewrite period_row_regular by lra. simpl Ending_Balance.
    destruct (IH (period + 1)%Z (c - (pay - c * rt))) as [Hlen Hrows];
      [lra | nra |].
    split; [simpl; now rewrite Hlen|].
    intros r [<- | Hin]; [simpl; lra|].
    destruct (Hrows r Hin) as (H1 & H2 & H3 & H4). repeat split; lra.
Qed.

End BuilderAccounts.

(** X3.  Every row begins with a positive balance; its payment is its
    principal part plus its interest part (in the short final row too) and
    never exceeds the level payment; and the principal part never exceeds
    the balance. *)
Theorem schedule_row_accounts (self : MortgagePayment)
  (principal pay rt : R) (ppy : Z) (r : Row) :
  In r (schedule_data self principal pay rt ppy) ->
  0 < Beginning_Balance r /\
  Payment r = Principal_Paid r + Interest_Paid r /\
  Payment r <= pay /\
  Principal_Paid r <= Beginning_Balance r.
Proof. unfold schedule_data. apply schedule_loop_row_accounts. Qed.

(** The short second row of the loan of 100 repaid by payments of 60. *)
Lemma schedule_row_accounts_witness :
  let r := {| Period := 2; Beginning_Balance := 40; Payment := 40;
              Principal_Paid := 40; Interest_Paid := 0; Ending_Balance := 0 |} in
  0 < Beginning_Balance r /\
  Payment r = Principal_Paid r + Interest_Paid r /\
  Payment r <= 60 /\
  Principal_Paid r <= Beginning_Balance r.
Proof.
  intros r. apply (schedule_row_accounts (__init__ 0 1 1) 100 60 0 2 r).
  rewrite example_short_final. simpl. tauto.
Defined.

(** X4.  Over a whole schedule, whatever the inputs, the payments add up to
    the principal paid plus the interest paid, and the principal paid adds
    up to the principal minus the ending balance of the last row. *)
Theorem schedule_totals (self : MortgagePayment)
  (principal pay rt : R) (ppy : Z) :
  let rows := schedule_data self principal pay rt ppy in
  column_sum Payment rows
  = column_sum Principal_Paid rows + column_sum Interest_Paid rows /\
  (forall r, last_row rows = Some r ->
     column_sum Principal_Paid rows = principal - Ending_Balance r).
Proof.
  intros rows. subst rows. split.
  - apply column_sum_split. intros r Hin.
    now apply schedule_row_accounts in Hin.
  - intros r. unfold schedule_data. apply schedule_loop_principal_sum.
Qed.

(** The payment of 1 on 100: 2 is paid off and 98 is left. *)
Lemma schedule_totals_witness :
  column_sum Principal_Paid (schedule_data (__init__ 0 1 1) 100 1 0 1)
  = 100 - 98.
Proof.
  destruct (schedule_totals (__init__ 0 1 1) 100 1 0 1) as [_ H].
  apply (H {| Period := 2; Beginning_Balance := 99; Payment := 1;
              Principal_Paid := 1; Interest_Paid := 0; Ending_Balance := 98 |}).
  rewrite example_truncated. reflexivity.
Defined.



(** X6.  At a rate [>= 0], a payment that does not exceed the first
    period's interest on a positive principal never reduces the balance:
    every row is a regular one whose principal part is not positive and
    whose ending balance is at least its beginning balance, and the schedule
    has a row for every one of the
    [amortization_years * periods_per_year + 1] iterations. *)
Theorem schedule_never_amortizes (self : MortgagePayment)
  (principal pay rt : R) (ppy : Z) :
  0 <= rt -> 0 < principal -> pay <= principal * rt ->
  let rows := schedule_data self principal pay rt ppy in
  length rows = Z.to_nat (amortization_years self * ppy + 1) /\
  (forall r, In r rows ->
     principal <= Beginning_Balance r /\
     Beginning_Balance r <= Ending_Balance r /\
     Payment r = pay /\ Principal_Paid r <= 0).
Proof.
  intros Hrt HP Hpay rows. subst rows. unfold schedule_data.
  now apply schedule_loop_no_progress.
Qed.

(** The interest-only payment of 10 on 1000 at 1 %. *)
Lemma schedule_never_amortizes_witness :
  length (schedule_data (__init__ 0 1 1) 1000 10 (1 / 100) 2) = 3%nat.
Proof.
  destruct (schedule_never_amortizes (__init__ 0 1 1) 1000 10 (1 / 100) 2)
    as [H _].
  - lra.
  - lra.
  - lra.
  - exact H.
Defined.

(** * The schedule of the level payment *)

Section LevelSchedule.

Variables level rt : R.
Hypothesis level_pos : 0 < level.
Hypothesis rate_ok : -1 < rt.







End LevelSchedule.

Section LevelPayment.

Variable self : MortgagePayment.
Variables principal rt : R.
Variable ppy : Z.
Hypothesis principal_pos : 0 < principal.
Hypothesis rate_nonneg : 0 <= rt.
Hypothesis periods_pos : (0 < amortization_years self * ppy)%Z.



End LevelPayment.





Section SpareIteration.

Variables pay rt : R.


End SpareIteration.

Section SpareIterationUse.

Variables level pay rt : R.
Hypothesis level_pos : 0 < level.
Hypothesis rate_ok : -1 < rt.
Hypothesis pay_small : pay < level.


End SpareIterationUse.



(** * Bounds on the level payment and on the periodic rates *)

Section SolverBounds.

Lemma geom_ge_count (r : R) (n : nat) : 0 <= r -> INR n <= geom r n.
Proof.
  intros Hr. induction n as [|n IH].
  - simpl. lra.
  - rewrite S_INR. simpl geom.
    assert (1 <= (1 + r) ^ n) by (apply pow_R1_Rle; lra). lra.
Qed.

Lemma geom_add (r : R) (k d : nat) :
  geom r (k + d) = geom r k + (1 + r) ^ k * geom r d.
Proof.
  induction d as [|d IH].
  - rewrite Nat.add_0_r. simpl. lra.
  - rewrite Nat.add_succ_r. simpl geom. rewrite IH, pow_add. ring.
Qed.


(** The factor that compares two horizons. *)
Lemma geom_cross (r : R) (k d : nat) :
  (1 + r) ^ k * geom r (k + d) - (1 + r) ^ (k + d) * geom r k
  = (1 + r) ^ k * geom r d.
Proof.
  rewrite geom_add, pow_add.
  pose proof (geom_closed_form r k) as Hk.
  pose proof (geom_closed_form r d) as Hd.
  set (a := (1 + r) ^ k) in *. set (b := (1 + r) ^ d) in *.
  set (g := geom r k) in *. set (h := geom r d) in *.
  assert (E : a * (g + a * h) - a * b * g - a * h
              = a * h * (a - 1 - r * g) - a * g * (b - 1 - r * h)) by ring.
  assert (E1 : a - 1 - r * g = 0) by lra.
  assert (E2 : b - 1 - r * h = 0) by lra.
  rewrite E1, E2 in E. lra.
Qed.

End SolverBounds.



(** X11.  At the same positive principal, rate [>= 0] and periods per year,
    a longer amortization gives a strictly smaller level payment. *)
Theorem longer_amortization_lowers_payment (self1 self2 : MortgagePayment)
  (principal rt : R) (m : Z) (level1 level2 : R) :
  0 < principal -> 0 <= rt ->
  (0 < amortization_years self1 * m)%Z ->
  (amortization_years self1 * m < amortization_years self2 * m)%Z ->
  calculate_payment self1 principal rt m = Ok level1 ->
  calculate_payment self2 principal rt m = Ok level2 ->
  level2 < level1.
Proof.
  intros HP Hr Hn1 Hlt H1 H2.
  assert (Hn2 : (0 < amortization_years self2 * m)%Z) by lia.
  pose proof (level_payment_equation self1 _ _ _ _ Hr Hn1 H1) as E1.
  pose proof (level_payment_equation self2 _ _ _ _ Hr Hn2 H2) as E2.
  set (k := Z.to_nat (amortization_years self1 * m)) in *.
  assert (Hd : exists d, Z.to_nat (amortization_years self2 * m) = (k + S d)%nat).
  { exists (Z.to_nat (amortization_years self2 * m) - k - 1)%nat. subst k. lia. }
  destruct Hd as [d Hd]. rewrite Hd in E2.
  assert (Hk1 : (1 <= k)%nat) by (subst k; lia).
  pose proof (geom_cross rt k (S d)) as Hc.
  pose proof (geom_ge_count rt k Hr) as Gk.
  pose proof (geom_ge_count rt (k + S d) Hr) as Gn.
  pose proof (geom_ge_count rt (S d) Hr) as Gd.
  assert (Ik : 1 <= INR k) by (apply (le_INR 1); exact Hk1).
  assert (In' : 1 <= INR (k + S d)) by (apply (le_INR 1); lia).
  assert (Id : 1 <= INR (S d)) by (apply (le_INR 1); lia).
  assert (Hx : 0 < (1 + rt) ^ k) by (apply pow_lt; lra).
  set (a := (1 + rt) ^ k) in *. set (b := (1 + rt) ^ (k + S d)) in *.
  set (g := geom rt k) in *. set (G := geom rt (k + S d)) in *.
  set (h := geom rt (S d)) in *.
  assert (Hprod : (level1 - level2) * (g * G) = principal * (a * h)).
  { assert (E : (level1 - level2) * (g * G)
                = (level1 * g) * G - (level2 * G) * g) by ring.
    rewrite E, E1, E2, <- Hc. ring. }
  assert (Hrhs : 0 < principal * (a * h)).
  { apply Rmult_lt_0_compat; [assumption|]. apply Rmult_lt_0_compat; lra. }
  assert (HgG : 0 < g * G) by (apply Rmult_lt_0_compat; lra).
  destruct (Rlt_dec level2 level1) as [|Hnlt]; [assumption|].
  exfalso. apply Rnot_lt_le in Hnlt.
  assert ((level1 - level2) * (g * G) <= 0 * (g * G))
    by (apply Rmult_le_compat_r; lra).
  lra.
Qed.

(** 1200 at no interest over one year and over two years of monthly
    payments. *)
Lemma longer_amortization_lowers_payment_witness : 1200 / 24 < 1200 / 12.
Proof.
  apply (longer_amortization_lowers_payment (__init__ 0 1 1) (__init__ 0 2 1)
           1200 0 12 (1200 / 12) (1200 / 24)).
  - lra.
  - lra.
  - simpl. lia.
  - simpl. lia.
  - rewrite calculate_payment_zero_rate by (simpl; lia). reflexivity.
  - rewrite calculate_payment_zero_rate by (simpl; lia). reflexivity.
Defined.

(** X12.  The constructor stores the quoted percentage divided by 100.  At
    a quoted rate of zero the four periodic rates are zero; at a positive
    quoted rate they are positive and ordered by frequency, the weekly rate
    the smallest and the monthly rate the largest, and the monthly rate is
    below a twelfth of the quoted rate. *)
Theorem init_rates_ordered (quoted : R) (years term : Z) :
  let self := __init__ quoted years term in
  quoted_interest_rate self = quoted / 100 /\
  (quoted = 0 ->
   monthly_rate self = 0 /\ semi_monthly_rate self = 0 /\
   bi_weekly_rate self = 0 /\ weekly_rate self = 0) /\
  (0 < quoted ->
   0 < weekly_rate self /\
   weekly_rate self < bi_weekly_rate self /\
   bi_weekly_rate self < semi_monthly_rate self /\
   semi_monthly_rate self < monthly_rate self /\
   monthly_rate self < quoted_interest_rate self / 12).
Proof.
  simpl. split; [reflexivity|]. split.
  - intros ->. replace (0 / 100) with 0 by lra.
    rewrite !period_rate_zero. repeat split; reflexivity.
  - intros Hq.
    assert (Hq' : 0 < quoted / 100) by lra.
    assert (Hb : 1 < 1 + quoted / 100 / 2) by lra.
    split; [apply period_rate_pos; [assumption | lia]|].
    unfold _period_rate.
    pose proof (Rpower_lt _ (2 / 52) (2 / 26) Hb ltac:(lra)).
    pose proof (Rpower_lt _ (2 / 26) (2 / 24) Hb ltac:(lra)).
    pose proof (Rpower_lt _ (2 / 24) (2 / 12) Hb ltac:(lra)).
    pose proof (period_rate_lt_simple (quoted / 100) 12 Hq' ltac:(lia)) as Hs.
    unfold _period_rate in Hs.
    repeat split; lra.
Qed.

(** A quoted 5.5 %. *)
Lemma init_rates_ordered_witness :
  weekly_rate (__init__ (11 / 2) 25 5) < monthly_rate (__init__ (11 / 2) 25 5).
Proof.
  destruct (init_rates_ordered (11 / 2) 25 5) as (_ & _ & H).
  destruct H as (_ & H1 & H2 & H3 & _); [lra|].
  lra.
Defined.

(** * The table as it is returned *)

Section ReturnedTable.

Lemma rint_nonneg (x : R) : 0 <= x -> (0 <= rint x)%Z.
Proof.
  intros Hx. unfold rint. destruct (base_Int_part x) as [Hlo Hhi].
  assert (Hf : (0 <= Int_part x)%Z).
  { assert (H : (-1 < Int_part x)%Z) by (apply lt_IZR; lra). lia. }
  destruct (Rlt_dec (x - IZR (Int_part x)) (1 / 2)); [assumption|].
  destruct (Rlt_dec (1 / 2) (x - IZR (Int_part x))); [lia|].
  destruct (Z.even (Int_part x)); lia.
Qed.

Lemma round2_nonneg (x : R) : 0 <= x -> 0 <= round2 x.
Proof.
  intros Hx. unfold round2.
  assert (H : (0 <= rint (x * 100))%Z) by (apply rint_nonneg; lra).
  apply IZR_le in H. lra.
Qed.

Lemma round2_zero : round2 0 = 0.
Proof. apply (round2_cents 0 0). lra. Qed.

Lemma last_row_map (f : Row -> Row) (rows : list Row) :
  last_row (map f rows) = option_map f (last_row rows).
Proof.
  induction rows as [|a rows IH]; [reflexivity|].
  destruct rows as [|b rows]; [reflexivity|].
  change (map f (a :: b :: rows)) with (f a :: map f (b :: rows)).
  rewrite !last_row_cons by discriminate. exact IH.
Qed.

End ReturnedTable.

(** X13.  In the table the builder returns, every amount is within half a
    cent of the amount the loop computed for the same row; each row still
    begins at the ending balance shown in the row before; no ending balance
    is negative; and when the loop's last row ends at zero so does the
    table's. *)
Theorem returned_table_properties (self : MortgagePayment)
  (principal pay rt : R) (ppy : Z) (table : list Row) :
  build_amortization_schedule self principal pay rt ppy = Ok table ->
  (forall i r, nth_error table i = Some r ->
     exists r0,
       nth_error (schedule_data self principal pay rt ppy) i = Some r0 /\
       Rabs (Beginning_Balance r - Beginning_Balance r0) <= 1 / 200 /\
       Rabs (Payment r - Payment r0) <= 1 / 200 /\
       Rabs (Principal_Paid r - Principal_Paid r0) <= 1 / 200 /\
       Rabs (Interest_Paid r - Interest_Paid r0) <= 1 / 200 /\
       Rabs (Ending_Balance r - Ending_Balance r0) <= 1 / 200) /\
  (forall i r r', nth_error table i = Some r -> nth_error table (S i) = Some r' ->
     Beginning_Balance r' = Ending_Balance r) /\
  (forall r, In r table -> 0 <= Ending_Balance r) /\
  (forall r0, last_row (schedule_data self principal pay rt ppy) = Some r0 ->
     Ending_Balance r0 = 0 ->
     exists r, last_row table = Some r /\ Ending_Balance r = 0).
Proof.
  intros Hb. apply build_amortization_schedule_inv in Hb. destruct Hb as [-> _].
  split; [|split; [|split]].
  - intros i r H. apply nth_error_round_row in H. destruct H as (r0 & H0 & ->).
    exists r0. split; [assumption|]. simpl. repeat split; apply round2_error.
  - intros i r r' H H'.
    apply nth_error_round_row in H. destruct H as (r0 & H0 & ->).
    apply nth_error_round_row in H'. destruct H' as (r0' & H0' & ->).
    simpl. f_equal. unfold schedule_data in *.
    exact (schedule_loop_chain _ _ _ _ _ _ _ _ H0 H0').
  - intros r Hin. apply in_map_iff in Hin. destruct Hin as (r0 & <- & Hin).
    simpl. apply round2_nonneg.
    unfold schedule_data in Hin. now apply schedule_loop_rows in Hin.
  - intros r0 Hlast Hz. exists (round_row r0).
    rewrite last_row_map, Hlast. split; [reflexivity|].
    simpl. rewrite Hz. exact round2_zero.
Qed.

(** 100 repaid by payments of 60. *)
Lemma returned_table_properties_witness :
  0 <= Ending_Balance
         (round_row {| Period := 1; Beginning_Balance := 100; Payment := 60;
                       Principal_Paid := 60; Interest_Paid := 0;
                       Ending_Balance := 40 |}).
Proof.
  destruct (returned_table_properties (__init__ 0 1 1) 100 60 0 2
              (map round_row (schedule_data (__init__ 0 1 1) 100 60 0 2)))
    as (_ & _ & H & _).
  - apply build_amortization_schedule_ok, schedule_data_nonempty;
      [lra | simpl; lia].
  - apply H. rewrite example_short_final. left. reflexivity.
Defined.

(** * The orchestrator: outcome and files *)

Section OrchestratorOutcome.

Variable self : MortgagePayment.
Variable principal : R.

(** When the builder succeeds for one scheme it succeeds for every scheme
    with a positive number of periods per year. *)
Lemma build_ok_all (pay rt : R) (ppy : Z) (d : list Row) (pay' rt' : R) (ppy' : Z) :
  (0 < ppy)%Z -> (0 < ppy')%Z ->
  build_amortization_schedule self principal pay rt ppy = Ok d ->
  exists d', build_amortization_schedule self principal pay' rt' ppy' = Ok d'.
Proof.
  intros Hp Hp' Hb.
  destruct (build_raises_iff self principal pay rt ppy) as ([_ Hraise] & _ & _).
  destruct (build_raises_iff self principal pay' rt' ppy') as (_ & _ & Hok).
  assert (HP : 0 < principal).
  { destruct (Rlt_dec 0 principal) as [|Hn]; [assumption|].
    rewrite Hraise in Hb by (left; lra). discriminate. }
  assert (Hy : (0 <= amortization_years self * ppy)%Z).
  { destruct (Z_lt_le_dec (amortization_years self * ppy) 0) as [Hn|]; [|assumption].
    rewrite Hraise in Hb by (right; assumption). discriminate. }
  eexists. apply Hok; [assumption | nia].
Qed.

Lemma generate_effects_agree :
  snd (generate_payment_schedule_effects self principal)
  = generate_payment_schedule self principal.
Proof.
  unfold generate_payment_schedule_effects, generate_payment_schedule.
  destruct (payments self principal) as [t | e]; [|reflexivity].
  destruct t as [[[[[monthly semi] bw] abw] w] aw].
  unfold schemes. cbn [run_schemes mapM bind name payment rate periods_per_year].
  repeat match goal with
         | |- context [build_amortization_schedule ?s ?p ?a ?b ?c] =>
             destruct (build_amortization_schedule s p a b c);
             cbn [fst snd bind dict_set]; try reflexivity
         end.
Qed.

End OrchestratorOutcome.





(** X15.  The writes of the orchestrator.  Its dictionary of schedules is
    the one computed without the writes.  When it completes, the workbook
    and the figure have each been written six times, after each scheme,
    the [k]-th time with the first [k] schedules in order, so that the files
    left on disk hold all six; when it raises, nothing has been written. *)
Theorem orchestrator_files (self : MortgagePayment) (principal : R) :
  snd (generate_payment_schedule_effects self principal)
  = generate_payment_schedule self principal /\
  (forall schedules,
     generate_payment_schedule self principal = Ok schedules ->
     fst (generate_payment_schedule_effects self principal)
     = flat_map
         (fun k =>
            [ ExcelWrite "Amortization_Schedules.xlsx" (firstn k schedules);
              SaveFig "Loan_Balance_Decline.png"
                (plot_lines (firstn k schedules)) ])
         (seq 1 6)) /\
  (forall e,
     generate_payment_schedule self principal = Raise e ->
     fst (generate_payment_schedule_effects self principal) = []).
Proof.
  split; [apply generate_effects_agree|].
  rewrite <- generate_effects_agree.
  unfold generate_payment_schedule_effects.
  destruct (payments self principal) as [t | e0];
    [|split; [discriminate | reflexivity]].
  destruct t as [[[[[monthly semi] bw] abw] w] aw].
  unfold schemes. cbn [run_schemes name payment rate periods_per_year].
  destruct (build_amortization_schedule self principal monthly
              (monthly_rate self) 12) as [d1 | e1] eqn:B1;
    [|split; [discriminate | reflexivity]].
  assert (Hall : forall pay' rt' ppy', (0 < ppy')%Z ->
            exists d', build_amortization_schedule self principal pay' rt' ppy'
                       = Ok d').
  { intros pay' rt' ppy' Hp.
    apply (build_ok_all self principal monthly (monthly_rate self) 12 d1);
      [lia | assumption | exact B1]. }
  destruct (Hall semi (semi_monthly_rate self) 24%Z ltac:(lia)) as [d2 ->].
  destruct (Hall bw (bi_weekly_rate self) 26%Z ltac:(lia)) as [d3 ->].
  destruct (Hall (monthly / 2) (bi_weekly_rate self) 26%Z ltac:(lia)) as [d4 ->].
  destruct (Hall w (weekly_rate self) 52%Z ltac:(lia)) as [d5 ->].
  destruct (Hall (monthly / 4) (weekly_rate self) 52%Z ltac:(lia)) as [d6 ->].
  cbn [fst snd dict_set]. split.
  - intros schedules E. simpl in E. injection E as <-. reflexivity.
  - intros e E. simpl in E. discriminate.
Qed.

(** The loan of 100 over one year: the last write of the workbook holds
    the six schedules that are returned. *)
Lemma orchestrator_files_witness :
  exists schedules,
    generate_payment_schedule (__init__ 0 1 1) 100 = Ok schedules /\
    nth_error (fst (generate_payment_schedule_effects (__init__ 0 1 1) 100)) 10
    = Some (ExcelWrite "Amortization_Schedules.xlsx" (firstn 6 schedules)).
Proof.
  destruct (orchestrator_files (__init__ 0 1 1) 100) as (_ & H & _).
  destruct (generate_payment_schedule_total (__init__ 0 1 1) 100 _
              ltac:(lra) ltac:(simpl; lia) payments_interest_free)
    as [schedules Hs].
  exists schedules. split; [exact Hs|].
  rewrite (H schedules Hs). reflexivity.
Defined.

(** * Change of unit *)

Section Scaling.

Variables pay rt k : R.
Hypothesis k_pos : 0 < k.



End Scaling.



(** * What a year of payments costs *)

Section AnnualOutlay.

Lemma power_gap (z : R) (n : nat) :
  1 < z -> (1 <= n)%nat ->
  INR (S n) * (z ^ n - 1) < INR n * (z ^ S n - 1).
Proof.
  intros Hz Hn. induction n as [|n IH]; [lia|].
  destruct n as [|n].
  - simpl. nra.
  - assert (IH' : INR (S (S n)) * (z ^ S n - 1) < INR (S n) * (z ^ S (S n) - 1))
      by (apply IH; lia).
    assert (Hy : 1 < z ^ S n) by (apply Rlt_pow_R1; [assumption | lia]).
    rewrite (S_INR (S (S n))), (S_INR (S n)) in *.
    change (z ^ S (S (S n))) with (z * (z * z ^ S n)).
    change (z ^ S (S n)) with (z * z ^ S n) in *.
    set (y := z ^ S n) in *. set (c := INR (S n)) in *.
    assert (H1 : 0 < z * (c * (z * y - 1) - (c + 1) * (y - 1)))
      by (apply Rmult_lt_0_compat; lra).
    assert (H2 : 0 < (z - 1) * (z * y - 1))
      by (apply Rmult_lt_0_compat; nra).
    nra.
Qed.

Lemma period_rate_double (q : R) (p : Z) :
  -2 < q -> (0 < p)%Z ->
  1 + _period_rate q p = (1 + _period_rate q (2 * p)) ^ 2.
Proof.
  intros Hq Hp. unfold _period_rate.
  replace (1 + (Rpower (1 + q / 2) (2 / IZR (2 * p)) - 1))
    with (Rpower (1 + q / 2) (2 / IZR (2 * p))) by lra.
  rewrite <- Rpower_pow by apply exp_pos. rewrite Rpower_mult.
  replace (2 / IZR (2 * p) * INR 2) with (2 / IZR p); [lra|].
  rewrite mult_IZR. simpl. field. apply not_0_IZR. lia.
Qed.

Lemma semi_monthly_rate_root (q : R) :
  -2 < q -> 1 + _period_rate q 24 = Rpower (1 + q / 2) (1 / 156) ^ 13.
Proof.
  intros Hq. unfold _period_rate.
  rewrite <- Rpower_pow by apply exp_pos. rewrite Rpower_mult.
  replace (1 / 156 * INR 13) with (2 / 24) by (simpl; lra). lra.
Qed.

Lemma bi_weekly_rate_root156 (q : R) :
  -2 < q -> 1 + _period_rate q 26 = Rpower (1 + q / 2) (1 / 156) ^ 12.
Proof.
  intros Hq. unfold _period_rate.
  rewrite <- Rpower_pow by apply exp_pos. rewrite Rpower_mult.
  replace (1 / 156 * INR 12) with (2 / 26) by (simpl; lra). lra.
Qed.

(** The periodic rate times the number of periods falls as the payments
    become more frequent. *)
Lemma annualised_rates (q : R) :
  0 < q ->
  52 * _period_rate q 52 < 26 * _period_rate q 26 /\
  26 * _period_rate q 26 < 24 * _period_rate q 24 /\
  24 * _period_rate q 24 < 12 * _period_rate q 12.
Proof.
  intros Hq.
  pose proof (period_rate_pos q 52 Hq ltac:(lia)) as H52.
  pose proof (period_rate_pos q 24 Hq ltac:(lia)) as H24.
  pose proof (period_rate_double q 26 ltac:(lra) ltac:(lia)) as D26.
  pose proof (period_rate_double q 12 ltac:(lra) ltac:(lia)) as D12.
  change (2 * 26)%Z with 52%Z in D26. change (2 * 12)%Z with 24%Z in D12.
  simpl pow in D26, D12.
  assert (Hz : Rpower (1 + q / 2) 0 < Rpower (1 + q / 2) (1 / 156))
    by (apply Rpower_lt; lra).
  rewrite Rpower_O in Hz by lra.
  pose proof (power_gap _ 12 Hz ltac:(lia)) as Hgap.
  rewrite <- semi_monthly_rate_root, <- bi_weekly_rate_root156 in Hgap by lra.
  replace (INR 13) with 13 in Hgap by (simpl; lra).
  replace (INR 12) with 12 in Hgap by (simpl; lra).
  repeat split; nra.
Qed.

End AnnualOutlay.

(** X17.  Of the six quotes of [payments], the two accelerated ones cost
    thirteen monthly payments a year.  For a positive principal and positive
    years, the four solved ones cost the same per year at a quoted rate of
    zero, and at a positive quoted rate they cost less per year the more
    frequent the payments are. *)
Theorem annual_outlay_ordered (quoted : R) (years term : Z) (principal : R)
  (monthly semi bw abw w aw : R) :
  (0 < years)%Z -> 0 < principal ->
  payments (__init__ quoted years term) principal
  = Ok (monthly, semi, bw, abw, w, aw) ->
  (26 * abw = 13 * monthly /\ 52 * aw = 13 * monthly) /\
  (quoted = 0 ->
   12 * monthly = principal / IZR years /\ 24 * semi = principal / IZR years /\
   26 * bw = principal / IZR years /\ 52 * w = principal / IZR years) /\
  (0 < quoted ->
   52 * w < 26 * bw /\ 26 * bw < 24 * semi /\ 24 * semi < 12 * monthly).
Proof.
  intros Hy HP Hpay.
  apply payments_inv in Hpay.
  destruct Hpay as (m' & s' & b' & w' & Em & Es & Eb & Ew & [= -> -> -> -> -> ->]).
  simpl in Em, Es, Eb, Ew.
  set (self := __init__ quoted years term) in *.
  split; [split; lra|]. split.
  - intros ->. replace (0 / 100) with 0 in * by lra.
    rewrite period_rate_zero in Em, Es, Eb, Ew.
    rewrite calculate_payment_zero_rate in Em, Es, Eb, Ew by (simpl; lia).
    apply Ok_inj in Em, Es, Eb, Ew. subst m' s' b' w'.
    simpl amortization_years. rewrite !mult_IZR.
    assert (HY : 0 < IZR years) by now apply IZR_lt.
    repeat split; field; lra.
  - intros Hq.
    assert (Hq' : 0 < quoted / 100) by lra.
    destruct (solved_payment_factor self (quoted / 100) principal 12 Hq' Hy)
      as [Fm HD]; [lia|].
    destruct (solved_payment_factor self (quoted / 100) principal 24 Hq' Hy)
      as [Fs _]; [lia|].
    destruct (solved_payment_factor self (quoted / 100) principal 26 Hq' Hy)
      as [Fb _]; [lia|].
    destruct (solved_payment_factor self (quoted / 100) principal 52 Hq' Hy)
      as [Fw _]; [lia|].
    rewrite Fm in Em. rewrite Fs in Es. rewrite Fb in Eb. rewrite Fw in Ew.
    apply Ok_inj in Em, Es, Eb, Ew. subst m' s' b' w'.
    destruct (annualised_rates (quoted / 100) Hq') as (A1 & A2 & A3).
    set (D := 1 - / ((1 + quoted / 100 / 2) ^ 2) ^ Z.to_nat (amortization_years self)) in *.
    assert (HDi : 0 < / D) by now apply Rinv_0_lt_compat.
    assert (HPD : 0 < principal * / D) by now apply Rmult_lt_0_compat.
    pose proof (Rmult_lt_compat_l _ _ _ HPD A1) as B1.
    pose proof (Rmult_lt_compat_l _ _ _ HPD A2) as B2.
    pose proof (Rmult_lt_compat_l _ _ _ HPD A3) as B3.
    unfold Rdiv in *. repeat split; lra.
Qed.

(** 100 over one year at no interest. *)
Lemma annual_outlay_ordered_witness :
  26 * (100 / 12 / 2) = 13 * (100 / 12) /\ 52 * (100 / 52) = 100 / IZR 1.
Proof.
  destruct (annual_outlay_ordered 0 1 1 100 _ _ _ _ _ _ ltac:(lia) ltac:(lra)
              payments_interest_free) as ([H1 _] & H0 & _).
  split; [exact H1|]. now destruct (H0 eq_refl) as (_ & _ & _ & H).
Defined.

(** * Principal and interest parts of the level payment *)



